(** * Kashubian corpus analysis: word triage, n-gram tables and smoothing

  A shallow embedding of [lexical_model/Blacklist.py] and of the pure
  parts of [lexical_model/Corpus_Analysis.py], followed by the properties
  of the cleaning pass, of the n-gram tables and of the two smoothing
  utilities.

  Conventions of the embedding:
  - a Python [str] is a [string] holding its UTF-8 bytes, so that set
    membership and equality agree with Python's;
  - a Python [int] is a [Z]; a Python [float] is the exact rational it
    approximates (rounding to the nearest double is not modelled, and
    neither is the [OverflowError] of a quotient beyond the range of a
    double: statements about quotients of free table entries assume
    [fits_float]);
  - a [set] is a [gset], a [dict] whose order is irrelevant is a [gmap],
    a [dict] whose order is observed (by [sorted]) is an association list;
  - an exception is a [Raise] in the [result] monad. *)

From Stdlib Require Import ZArith QArith Lia Ascii String.
From stdpp Require Import gmap strings list fin_maps sorting.

Close Scope Q_scope.
Open Scope string_scope.
Open Scope list_scope.
Open Scope Z_scope.

(** ** Python values and builtins *)

Module Py.

Inductive exn : Type := KeyError | IndexError | ZeroDivisionError.

Inductive result (A : Type) : Type :=
| Ok (a : A)
| Raise (e : exn).
Arguments Ok {A} a.
Arguments Raise {A} e.

#[global] Instance result_ret : MRet result := λ A a, Ok a.
#[global] Instance result_bind : MBind result := λ A B f r,
  match r with
  | Ok a => f a
  | Raise e => Raise e
  end.
#[global] Instance result_fmap : FMap result := λ A B f r,
  match r with
  | Ok a => Ok (f a)
  | Raise e => Raise e
  end.

(** [for x in xs: s = body(s, x)] with exceptions leaving the loop. *)
Fixpoint for_each {A S : Type} (body : S → A → result S) (xs : list A) (s : S)
  : result S :=
  match xs with
  | [] => Ok s
  | x :: xs' => s' ← body s x; for_each body xs' s'
  end.

(** Numbers: [int], and [float] as an exact rational kept in lowest terms. *)
Inductive num : Type :=
| NInt (z : Z)
| NFloat (q : Q).

Definition Q_of_num (x : num) : Q :=
  match x with
  | NInt z => inject_Z z
  | NFloat q => q
  end.

(** [a / b]: true division, always a float; a zero divisor raises.
    Python also raises [OverflowError] when the quotient of two ints is
    beyond the range of a double; that path is left out here, which is
    exact whenever [fits_float] holds of the operands. *)
Definition truediv (a b : num) : result num :=
  if Qeq_bool (Q_of_num b) 0 then Raise ZeroDivisionError
  else Ok (NFloat (Qred (Q_of_num a / Q_of_num b))).

(** The least magnitude that no longer rounds to a finite double: halfway
    between the largest double, [2^1024 - 2^971], and [2^1024]. *)
Definition float_limit : Z := 2 ^ 1024 - 2 ^ 970.

(** The quotient [a / b] of two ints, if [b] is not zero, is below
    [float_limit] in magnitude, so that Python's [a / b] is a float. *)
Definition fits_float (a b : Z) : bool :=
  (b =? 0) || (Z.abs a <? float_limit * Z.abs b).

(** [a * b]: an int only when both operands are ints. *)
Definition mul (a b : num) : num :=
  match a, b with
  | NInt x, NInt y => NInt (x * y)
  | _, _ => NFloat (Qred (Q_of_num a * Q_of_num b))
  end.

Definition len {A : Type} (l : list A) : Z := Z.of_nat (length l).

(** [sum(xs)]: starts from [0] and adds from the left. *)
Definition sum (xs : list Z) : Z := foldl Z.add 0 xs.

(** [range(n)]: empty when [n <= 0]. *)
Definition range (n : Z) : list Z := Z.of_nat <$> seq 0 (Z.to_nat n).

(** [l[i]]: a negative index counts from the end; out of range raises. *)
Definition getitem {A : Type} (l : list A) (i : Z) : result A :=
  let j := if i <? 0 then i + len l else i in
  if (0 <=? j) && (j <? len l) then
    match l !! Z.to_nat j with
    | Some x => Ok x
    | None => Raise IndexError
    end
  else Raise IndexError.

Section Dict.

Context {K : Type} `{Countable K}.

(** [d.values()], in some order. *)
Definition values {V : Type} (d : gmap K V) : list V := (map_to_list d).*2.

(** [k in d] and [d[k]]; reading a missing key raises. *)
Definition contains {V : Type} (d : gmap K V) (k : K) : bool :=
  bool_decide (is_Some (d !! k)).

Definition subscript {V : Type} (d : gmap K V) (k : K) : result V :=
  match d !! k with
  | Some v => Ok v
  | None => Raise KeyError
  end.

(** [d.get(k, 0)], which is also how a [Counter] reads a key. *)
Definition get0 (d : gmap K Z) (k : K) : Z := default 0 (d !! k).

(** [d[k] += 1] on a plain dict: the key has to be there. *)
Definition increment (k : K) (d : gmap K Z) : result (gmap K Z) :=
  match d !! k with
  | Some v => Ok (<[k := v + 1]> d)
  | None => Raise KeyError
  end.

(** [Counter(xs)]: one pass, [c[x] = c.get(x, 0) + 1]. *)
Definition Counter (xs : list K) : gmap K Z :=
  foldl (λ c x, <[x := get0 c x + 1]> c) ∅ xs.

End Dict.

(** [len(s)] of a [str] counts code points: the bytes that are not UTF-8
    continuation bytes (10xxxxxx). *)
Definition is_continuation (c : ascii) : bool :=
  let n := N_of_ascii c in ((128 <=? n) && (n <? 192))%N.

Fixpoint str_len (s : string) : Z :=
  match s with
  | EmptyString => 0
  | String c s' => (if is_continuation c then 0 else 1) + str_len s'
  end.

(** [str.lower] on the alphabet of [WORD_PATTERN]: ASCII letters, the
    Latin-1 capitals (two bytes, lead 0xC3) and the capitals Ą Ł Ń Ż.
    Every other byte is left as it is. The general theorems below hold for
    any lowercasing function; this one evaluates the concrete instances. *)
Definition lower_ascii (c : ascii) : ascii :=
  let n := N_of_ascii c in
  if ((65 <=? n) && (n <=? 90))%N then ascii_of_N (n + 32) else c.

Definition lower_latin1 (d : ascii) : ascii :=
  let n := N_of_ascii d in
  if ((128 <=? n) && (n <=? 158) && negb (n =? 151))%N
  then ascii_of_N (n + 32) else d.

Definition lower_extA (c d : ascii) : ascii :=
  let m := N_of_ascii c in
  let n := N_of_ascii d in
  if ((m =? 196) && (n =? 132))%N then ascii_of_N 133
  else if ((m =? 197) && ((n =? 129) || (n =? 131) || (n =? 187)))%N
  then ascii_of_N (n + 1) else d.

Fixpoint lower (s : string) : string :=
  match s with
  | EmptyString => EmptyString
  | String c s' =>
      match s' with
      | String d s'' =>
          if (N_of_ascii c =? 195)%N
          then String c (String (lower_latin1 d) (lower s''))
          else if ((N_of_ascii c =? 196) || (N_of_ascii c =? 197))%N
          then String c (String (lower_extA c d) (lower s''))
          else String (lower_ascii c) (lower s')
      | EmptyString => String (lower_ascii c) EmptyString
      end
  end.

(** [sorted(items, key=key, reverse=True)]: a stable sort by decreasing key;
    items with equal keys keep their order. *)
Fixpoint insert_by {A : Type} (key : A → Z) (x : A) (l : list A) : list A :=
  match l with
  | [] => [x]
  | y :: l' => if key x <? key y then y :: insert_by key x l' else x :: l
  end.

Definition sorted_desc {A : Type} (key : A → Z) (items : list A) : list A :=
  foldr (insert_by key) [] items.

(** [l[:n]]: a negative [n] counts from the end. *)
Definition slice_to {A : Type} (l : list A) (n : Z) : list A :=
  if 0 <=? n then take (Z.to_nat n) l else take (Z.to_nat (len l + n)) l.

(** [s.startswith(p)] *)
Definition startswith (s p : string) : bool := String.prefix p s.

Section CounterOrder.

Context {K : Type} `{Countable K}.

(** The distinct elements of [xs], each at its first occurrence: the order in
    which a [Counter] (a dict) holds its keys. *)
Fixpoint first_occurrences (xs : list K) : list K :=
  match xs with
  | [] => []
  | x :: xs' => x :: filter (λ y, y ≠ x) (first_occurrences xs')
  end.

(** [Counter(xs).items()] *)
Definition counter_items (xs : list K) : list (K * Z) :=
  (λ x, (x, get0 (Counter xs) x)) <$> first_occurrences xs.

End CounterOrder.

End Py.

Import Py.

(** ** [Blacklist.py]: the category sets and the triage *)

Module Blacklist.

Definition BLACKLIST_WEB_MARKUP : gset string :=
  {[
    "html"; "div"; "span"; "class"; "style"; "href"; "alt"; "src"; "table";
    "tbody"; "thead"; "tr"; "td"; "th"; "left"; "right"; "center"; "top";
    "bottom"; "width"; "height"; "padding"; "margin"; "border";
    "background"; "bgcolor"; "solid"; "align"; "valign"; "px"; "pt"; "em";
    "rem"; "cellpadding"; "cellspacing"; "colspan"; "rowspan"; "http";
    "https"; "www"; "com"; "org"; "net"; "edu"; "gov"; "text-align";
    "font-size"; "border-bottom"; "border-collapse"; "gainsboro"; "html";
    "htm"; "php"; "asp"; "jpg"; "jpeg"; "png"; "gif"; "svg"; "pdf"; "doc";
    "docx"; "txt"; "xml"; "json"; "wikitable"; "thumb"; "thumbnail";
    "frame"; "frameless"; "upright"; "caption"; "file"; "image"; "link";
    "collapse"; "nbsp"; "amp"; "lt"; "gt"; "quot"; "ffffff"; "efefef";
    "cccccc"; "000000"
  ]}.

Definition BLACKLIST_ENGLISH : gset string :=
  {[
    "the"; "of"; "and"; "or"; "in"; "on"; "at"; "for"; "from"; "with";
    "about"; "by"; "as"; "is"; "was"; "are"; "be"; "been"; "have"; "has";
    "had"; "does"; "did"; "will"; "would"; "could"; "should"; "may";
    "might"; "can"; "must"; "he"; "she"; "it"; "they"; "me"; "him"; "her";
    "us"; "them"; "my"; "your"; "his"; "its"; "our"; "their"; "new";
    "world"; "live"; "best"; "central"; "history"; "archive"; "records";
    "image"; "gray"; "grey"; "red"; "blue"; "green"; "black"; "white";
    "per"; "iron"; "stone"; "web"; "european"; "kashubs"; "love"; "bad";
    "art"; "publishing"; "academic"; "imprint"; "press"; "university";
    "journal"; "volume"; "page"; "edition"; "published"; "edited";
    "bloomsbury"; "maiden"; "alfred"; "toyota"; "linux"
  ]}.

Definition BLACKLIST_FOREIGN : gset string :=
  {[
    "und"; "der"; "die"; "das"; "von"; "zu"; "im"; "am"; "ist"; "wird";
    "werden"; "wurde"; "wurden"; "jest"; "się"; "został"; "została"; "były";
    "miał"; "wends"; "sorbs"; "outposts"; "cantharellus"; "cibarius";
    "slav"; "też"; "pawła"
  ]}.

Definition BLACKLIST_PROPER_NOUNS : gset string :=
  {[
    "piotr"; "paweł"; "józef"; "jan"; "jana"; "anna"; "maria"; "ewa";
    "adam"; "marian"; "jerzy"; "katarzyna"; "katarzëna"; "dorothee";
    "wilhelm"; "bernard"; "aleksander"; "aleksandra"; "stanisław";
    "stanisłôw"; "władisłôw"; "ryszard"; "andrzej"; "alojzy"; "henrik";
    "dominik"; "franciszka"; "zimmer"; "eisenreich"; "rachańska"; "kreyser";
    "lorentz"; "labùda"; "borzyszkowski"; "susk"; "toyota"; "linux"; "pwn";
    "plc"; "ossolineum"; "multico"; "legia"
  ]}.

Definition BLACKLIST_ABBREVIATIONS : gset string :=
  {[
    "km"; "cm"; "mm"; "m"; "dm"; "kg"; "g"; "mg"; "l"; "ml"; "isbn"; "issn";
    "doi"; "ed"; "eds"; "vol"; "pp"; "p"; "dr"; "prof"; "mgr"; "inż"; "hab";
    "nr"; "np"; "tzw"; "itd"; "itp"; "ok"; "sg"; "pl"; "nom"; "gen"; "dat";
    "acc"; "loc"; "inst"; "wst"; "rkj"; "ss"; "st"
  ]}.

Definition BLACKLIST_NUMBERS : gset string :=
  {[
    "ii"; "iii"; "iv"; "v"; "vi"; "vii"; "viii"; "ix"; "x"; "xi"; "xii";
    "xiii"; "xiv"; "xv"; "xvi"; "xvii"; "xviii"; "xix"; "xx"; "xxi"; "xxx";
    "xl"; "l"; "lx"; "lxx"; "lxxx"; "xc"; "c"
  ]}.

Definition BLACKLIST_CODES : gset string :=
  {[
    "en"; "de"; "pl"; "fr"; "es"; "it"; "ru"; "cs"; "sk"; "uk"; "csb";
    "usa"; "gb"; "fr"; "ru"
  ]}.

Definition BLACKLIST_SINGLE_CHARS : gset string :=
  {[
    "b"; "c"; "d"; "e"; "f"; "g"; "h"; "j"; "l"; "m"; "n"; "o"; "p"; "q";
    "r"; "t"; "u"; "v"; "x"; "y"; "pi"; "mu"; "sigma"; "alpha"; "beta";
    "gamma"; "delta"
  ]}.

Definition FINAL_BLACKLIST : gset string :=
  BLACKLIST_WEB_MARKUP ∪
  BLACKLIST_ENGLISH ∪
  BLACKLIST_FOREIGN ∪
  BLACKLIST_PROPER_NOUNS ∪
  BLACKLIST_ABBREVIATIONS ∪
  BLACKLIST_NUMBERS ∪
  BLACKLIST_CODES ∪
  BLACKLIST_SINGLE_CHARS.

(** These words are never removed, even if they appear in a blacklist
    category. *)
Definition WHITELIST : gset string :=
  {[
    "w"; "z"; "s"; "k"; "ò"; "i"; "a"; "to"; "të"; "më"; "òn"; "òna"; "òno";
    "le"; "je"; "są"; "ma"; "mô"; "të"; "no"; "ja"; "co"; "to"; "ã"; "é";
    "ë"; "ó"; "ô"; "ù"; "ł"; "ń"; "ż"; "ź"; "ch"; "cz"; "dz"; "dż"; "rz";
    "sz"; "na"; "òd"; "do"; "pò"; "ni"; "të"; "so"; "we"; "bez"; "ale";
    "neg"; "òle"; "dlô"; "jak"; "czi"; "ani"; "abò"; "òni"; "jich"; "jim";
    "tej"; "ten"; "tom"; "tak"; "nie"; "më"; "më"; "bëc"; "był"; "bëła";
    "są"
  ]}.

(** The counters [clean_corpus] starts from; the dict is called
    [removed_by_category] in the source and has nine keys. *)
Definition initial_removed_by_category : gmap string Z :=
  <["web_markup" := 0]> (
  <["english" := 0]> (
  <["foreign" := 0]> (
  <["proper_nouns" := 0]> (
  <["abbreviations" := 0]> (
  <["numbers" := 0]> (
  <["codes" := 0]> (
  <["single_chars" := 0]> (
  <["protected_by_whitelist" := 0]> ∅)))))))).

Record clean_stats : Type := {
  original_words : Z;
  cleaned_words : Z;
  removed_words : Z;
  percentage_removed : num;
  removed_by_category : gmap string Z;
  blacklist_size : Z;
  whitelist_size : Z
}.

Section Triage.

(** [word.lower()] is Python's builtin; the triage is embedded over an
    arbitrary lowercasing function. *)
Variable lower : string → string.

Definition should_keep_word (word : string) : bool :=
  let word_lower := lower word in
  if decide (word_lower ∈ WHITELIST) then true
  else if decide (word_lower ∈ FINAL_BLACKLIST) then false
  else true.

(** One iteration of the filtering loop of [clean_corpus], on the pair of
    [cleaned_words] and [removed_by_category]. *)
Definition clean_step (st : list string * gmap string Z) (word : string)
  : result (list string * gmap string Z) :=
  let '(cleaned, removed) := st in
  let word_lower := lower word in
  if decide (word_lower ∈ WHITELIST) then
    removed' ← increment "protected_by_whitelist" removed;
    Ok (cleaned ++ [word], removed')
  else if decide (word_lower ∈ BLACKLIST_WEB_MARKUP) then
    removed' ← increment "web_markup" removed; Ok (cleaned, removed')
  else if decide (word_lower ∈ BLACKLIST_ENGLISH) then
    removed' ← increment "english" removed; Ok (cleaned, removed')
  else if decide (word_lower ∈ BLACKLIST_FOREIGN) then
    removed' ← increment "foreign" removed; Ok (cleaned, removed')
  else if decide (word_lower ∈ BLACKLIST_PROPER_NOUNS) then
    removed' ← increment "proper_nouns" removed; Ok (cleaned, removed')
  else if decide (word_lower ∈ BLACKLIST_ABBREVIATIONS) then
    removed' ← increment "abbreviations" removed; Ok (cleaned, removed')
  else if decide (word_lower ∈ BLACKLIST_NUMBERS) then
    removed' ← increment "numbers" removed; Ok (cleaned, removed')
  else if decide (word_lower ∈ BLACKLIST_CODES) then
    removed' ← increment "codes" removed; Ok (cleaned, removed')
  else if decide (word_lower ∈ BLACKLIST_SINGLE_CHARS) then
    removed' ← increment "single_chars" removed; Ok (cleaned, removed')
  else Ok (cleaned ++ [word], removed).

Definition clean_corpus (words : list string)
  : result (list string * clean_stats) :=
  let original_count := len words in
  '(cleaned, removed) ← for_each clean_step words ([], initial_removed_by_category);
  let removed_count := original_count - len cleaned in
  percentage ←
    (if 0 <? original_count
     then q ← truediv (NInt removed_count) (NInt original_count);
          Ok (mul q (NInt 100))
     else Ok (NInt 0));
  Ok (cleaned,
      {| original_words := original_count;
         cleaned_words := len cleaned;
         removed_words := removed_count;
         percentage_removed := percentage;
         removed_by_category := removed;
         blacklist_size := Z.of_nat (size FINAL_BLACKLIST);
         whitelist_size := Z.of_nat (size WHITELIST) |}).

End Triage.

(** The eight blacklist categories in the order [clean_corpus] tests them,
    each with the key of its counter. *)
Definition category_order : list (string * gset string) :=
  [ ("web_markup", BLACKLIST_WEB_MARKUP);
    ("english", BLACKLIST_ENGLISH);
    ("foreign", BLACKLIST_FOREIGN);
    ("proper_nouns", BLACKLIST_PROPER_NOUNS);
    ("abbreviations", BLACKLIST_ABBREVIATIONS);
    ("numbers", BLACKLIST_NUMBERS);
    ("codes", BLACKLIST_CODES);
    ("single_chars", BLACKLIST_SINGLE_CHARS) ].

(** The key of the first category of [category_order] that holds [w]. *)
Definition first_category (w : string) : option string :=
  fst <$> List.find (λ c, bool_decide (w ∈ c.2)) category_order.

(** The counter that the triage charges for a lowercased token: the
    whitelist comes first, then the first blacklist category; [None] for a
    token that is kept by default. *)
Definition counter_key (w : string) : option string :=
  if decide (w ∈ WHITELIST) then Some "protected_by_whitelist"
  else first_category w.

(** Every counter of the initial dict is still a key. *)
Definition has_counters (d : gmap string Z) : Prop :=
  ∀ k, is_Some (initial_removed_by_category !! k) → is_Some (d !! k).

(** [validate_lists], without its printed warnings: whether no word is in
    both lists. *)
Definition validate_lists : bool :=
  let overlap := FINAL_BLACKLIST ∩ WHITELIST in
  if bool_decide (overlap ≠ ∅) then false else true.

End Blacklist.

Import Blacklist.

(** ** [Corpus_Analysis.py]: quality metrics, smoothing and n-gram tables *)

Module Corpus_Analysis.

(** An entry of the lexical model, as [main] builds it. *)
Record lex_entry : Type := {
  count : Z;
  probability : num;
  percentage : num
}.

(** [sorted(items, key=count, reverse=True)]: stable, so entries with equal
    counts keep the order of the dict. *)
Fixpoint insert_desc (x : string * lex_entry) (l : list (string * lex_entry))
  : list (string * lex_entry) :=
  match l with
  | [] => [x]
  | y :: l' =>
      if count x.2 <? count y.2 then y :: insert_desc x l' else x :: l
  end.

Definition sorted_by_count_desc (items : list (string * lex_entry))
  : list (string * lex_entry) :=
  foldr insert_desc [] items.

Record quality_metrics : Type := {
  type_token_ratio : num;
  hapax_legomena : num;
  hapax_percentage : num;
  dis_legomena : num;
  dis_percentage : num;
  avg_word_length : num;
  top_10_coverage : num;
  top_100_coverage : num;
  top_1000_coverage : num;
  vocab_growth_rate : num
}.

(** [a / b * 100 if b > 0 else 0] *)
Definition percent_of (a b : Z) : result num :=
  if 0 <? b then q ← truediv (NInt a) (NInt b); Ok (mul q (NInt 100))
  else Ok (NInt 0).

(** The lexical model is a dict read in insertion order (by [sorted]), hence
    an association list. *)
Definition compute_corpus_quality
    (words : list string) (lexical_model : list (string * lex_entry))
  : result quality_metrics :=
  let unique_words : gset string := list_to_set words in
  let total_words := len words in
  let vocab_size := Z.of_nat (size unique_words) in
  ttr ← (if 0 <? total_words
         then truediv (NInt vocab_size) (NInt total_words)
         else Ok (NInt 0));
  let hapax :=
    sum ((λ _, 1) <$> filter (λ wd, count wd.2 = 1) lexical_model) in
  hapax_pct ← percent_of hapax vocab_size;
  let dis :=
    sum ((λ _, 1) <$> filter (λ wd, count wd.2 = 2) lexical_model) in
  dis_pct ← percent_of dis vocab_size;
  avg_length ← (if 0 <? total_words
                then truediv (NInt (sum (str_len <$> words))) (NInt total_words)
                else Ok (NInt 0));
  let sorted_words := sorted_by_count_desc lexical_model in
  let top (k : nat) := sum ((λ wd, count wd.2) <$> take k sorted_words) in
  top_10 ← percent_of (top 10%nat) total_words;
  top_100 ← percent_of (top 100%nat) total_words;
  top_1000 ← percent_of (top 1000%nat) total_words;
  growth ← (if 1000 <=? total_words
            then
              let sample_size := Z.min 1000 (total_words / 10) in
              let sample : gset string :=
                list_to_set (take (Z.to_nat sample_size) words) in
              q ← truediv (NInt (Z.of_nat (size sample))) (NInt sample_size);
              Ok (mul q (NInt 1000))
            else Ok (mul ttr (NInt 1000)));
  Ok {| type_token_ratio := ttr;
        hapax_legomena := NInt hapax;
        hapax_percentage := hapax_pct;
        dis_legomena := NInt dis;
        dis_percentage := dis_pct;
        avg_word_length := avg_length;
        top_10_coverage := top_10;
        top_100_coverage := top_100;
        top_1000_coverage := top_1000;
        vocab_growth_rate := growth |}.

Definition add_one_smoothed_prob (w1 w2 : string)
    (bigram_freq : gmap (string * string) Z) (word_freq : gmap string Z)
  : result num :=
  let vocab_size := Z.of_nat (size word_freq) in
  let bigram_count := get0 bigram_freq (w1, w2) in
  let w1_count := get0 word_freq w1 in
  let smoothed_count := bigram_count + 1 in
  if 0 <? w1_count
  then truediv (NInt smoothed_count) (NInt (w1_count + vocab_size))
  else Ok (NInt 0).

(** The body of the loop of [good_turing_smoothing]. It writes the key
    [freq] only, and the keys of a dict are distinct, so the order in which
    the items are visited does not show in the result. *)
Definition good_turing_step (freq_of_freqs : gmap Z Z)
    (adjusted : gmap Z num) (item : Z * Z) : result (gmap Z num) :=
  let '(freq, cnt) := item in
  if contains freq_of_freqs (freq + 1) then
    next ← subscript freq_of_freqs (freq + 1);
    v ← truediv (NInt ((freq + 1) * next)) (NInt cnt);
    Ok (<[freq := v]> adjusted)
  else Ok (<[freq := NInt freq]> adjusted).

Definition good_turing_smoothing (freq_of_freqs : gmap Z Z)
  : result (gmap Z num) :=
  for_each (good_turing_step freq_of_freqs) (map_to_list freq_of_freqs) ∅.

(** The tables of [main], steps 3 to 5, over the cleaned words. *)
Definition word_freq (words : list string) : gmap string Z := Counter words.

Definition word_bigrams (words : list string)
  : result (list (string * string)) :=
  for_each
    (λ acc i,
       a ← getitem words i;
       b ← getitem words (i + 1);
       Ok (acc ++ [(a, b)]))
    (range (len words - 1)) [].

Definition bigram_freq (words : list string)
  : result (gmap (string * string) Z) :=
  Counter <$> word_bigrams words.

Definition word_trigrams (words : list string)
  : result (list (string * string * string)) :=
  for_each
    (λ acc i,
       a ← getitem words i;
       b ← getitem words (i + 1);
       c ← getitem words (i + 2);
       Ok (acc ++ [(a, b, c)]))
    (range (len words - 2)) [].

Definition trigram_freq (words : list string)
  : result (gmap (string * string * string) Z) :=
  Counter <$> word_trigrams words.

(** [sum(bigram_count(w1, w2) for all w2)]: the total of the entries of a
    bigram table whose first word is [w1]. *)
Definition continuation_total (w1 : string) (table : gmap (string * string) Z)
  : Z :=
  sum ((filter (λ kv, kv.1.1 = w1) (map_to_list table)).*2).

(** The adjusted frequency in the spec's words: [(f+1) * N(f+1) / N(f)] when
    [f+1] is observed, [f] unchanged otherwise. *)
Definition good_turing_value (freq_of_freqs : gmap Z Z) (f c : Z) : num :=
  match freq_of_freqs !! (f + 1) with
  | Some next => NFloat (Qred (inject_Z ((f + 1) * next) / inject_Z c))
  | None => NInt f
  end.

(** Every frequency whose successor is observed has a nonzero count. *)
Definition guarded (freq_of_freqs : gmap Z Z) : Prop :=
  map_Forall (λ f c, is_Some (freq_of_freqs !! (f + 1)) → c ≠ 0) freq_of_freqs.

(** No division of [good_turing_smoothing] by a nonzero count leaves the
    range of a float. *)
Definition quotients_fit (freq_of_freqs : gmap Z Z) : Prop :=
  map_Forall
    (λ f c,
       from_option (λ next, fits_float ((f + 1) * next) c) true
         (freq_of_freqs !! (f + 1)) = true)
    freq_of_freqs.

(** The tables of the spec's examples: [{("to","je"): 1}],
    [{"to": 2, "je": 1}], [{1: 100, 2: 40}], and [{1: 0, 2: 40}]. *)
Definition example_bigram_freq : gmap (string * string) Z :=
  {[ ("to", "je") := 1 ]}.

Definition example_word_freq : gmap string Z :=
  <["to" := 2]> {[ "je" := 1 ]}.

Definition example_freq_of_freqs : gmap Z Z :=
  <[1 := 100]> {[ 2 := 40 ]}.

Definition zero_count_freq_of_freqs : gmap Z Z :=
  <[1 := 0]> {[ 2 := 40 ]}.

(** An entry of the bigram model of [main], step 4. *)
Record bigram_entry : Type := {
  pair_count : Z;
  conditional_probability : num;
  joint_probability : num
}.

(** The body of the loop that fills [bigram_model], a [defaultdict(dict)]:
    [word_freq] is a [Counter], so a missing word reads as [0]. *)
Definition bigram_model_step (word_freq : gmap string Z) (total_bigrams : Z)
    (bigram_model : gmap string (gmap string bigram_entry))
    (item : string * string * Z)
  : result (gmap string (gmap string bigram_entry)) :=
  let '((w1, w2), cnt) := item in
  let w1_count := get0 word_freq w1 in
  conditional_prob ← truediv (NInt cnt) (NInt w1_count);
  joint_prob ← truediv (NInt cnt) (NInt total_bigrams);
  Ok (<[w1 := <[w2 := {| pair_count := cnt;
                         conditional_probability := conditional_prob;
                         joint_probability := joint_prob |}]>
               (default ∅ (bigram_model !! w1))]> bigram_model).

(** [total_bigrams = sum(bigram_freq.values())] *)
Definition total_bigrams (words : list string) : result Z :=
  table ← bigram_freq words; Ok (sum (values table)).

Definition total_trigrams (words : list string) : result Z :=
  table ← trigram_freq words; Ok (sum (values table)).

Definition bigram_model (words : list string)
  : result (gmap string (gmap string bigram_entry)) :=
  table ← bigram_freq words;
  for_each (bigram_model_step (word_freq words) (sum (values table)))
           (map_to_list table) ∅.

(** [example_word_prediction] after the model file is loaded: [words] is the
    dict [model['words']] in its order, with distinct keys. The printed
    listing is left out. *)
Definition example_word_prediction (lower : string → string)
    (words : list (string * lex_entry)) (prefix : string) (top_n : Z)
  : list string :=
  let matches :=
    (λ wd, (wd.1, count wd.2))
      <$> filter (λ wd, startswith wd.1 (lower prefix) = true) words in
  let sorted_matches := sorted_desc (λ x : string * Z, x.2) matches in
  (slice_to sorted_matches top_n).*1.

(** The lexical model of [main], step 3: one entry per key of [word_freq], in
    the order of the dict. The keys are distinct, so storing an entry under
    its key appends it. *)
Definition lexical_model (words : list string)
  : result (list (string * lex_entry)) :=
  let total_words := len words in
  for_each
    (λ model item,
       let '(word, cnt) := item in
       p ← truediv (NInt cnt) (NInt total_words);
       q ← truediv (NInt cnt) (NInt total_words);
       Ok (model ++ [(word, {| count := cnt;
                               probability := p;
                               percentage := mul q (NInt 100) |})]))
    (counter_items words) [].

(** [quality_metrics = compute_corpus_quality(words, lexical_model)] *)
Definition main_quality_metrics (words : list string) : result quality_metrics :=
  model ← lexical_model words; compute_corpus_quality words model.

End Corpus_Analysis.

Import Corpus_Analysis.

(** * Properties *)

(** ** Sums, dict values and counters *)

Section SumFacts.

Lemma foldl_add_shift (l : list Z) (a : Z) :
  foldl Z.add a l = a + foldl Z.add 0 l.
Proof.
  revert a. induction l as [|x l IH]; intros a; simpl; [lia|].
  rewrite (IH (a + x)), (IH (0 + x)). lia.
Qed.

Lemma sum_cons (x : Z) (l : list Z) : sum (x :: l) = x + sum l.
Proof. unfold sum. simpl. rewrite foldl_add_shift. lia. Qed.

Lemma sum_Permutation (l k : list Z) : l ≡ₚ k → sum l = sum k.
Proof.
  induction 1 as [|x l k _ IH|x y l|l k m _ IH1 _ IH2];
    rewrite ?sum_cons; try lia; congruence.
Qed.

Lemma len_nil {A : Type} : len (@nil A) = 0.
Proof. reflexivity. Qed.

Lemma len_cons {A : Type} (x : A) (l : list A) : len (x :: l) = 1 + len l.
Proof. unfold len. simpl length. lia. Qed.

Lemma len_app {A : Type} (l k : list A) : len (l ++ k) = len l + len k.
Proof. unfold len. rewrite length_app. lia. Qed.

End SumFacts.

Section DictFacts.

Context {K : Type} `{Countable K}.
Context (P : K → Prop) `{∀ k, Decision (P k)}.

(** The total of the entries of [d] whose key satisfies [P]. *)
Local Abbreviation total d := (sum ((filter (λ kv : K * Z, P kv.1) (map_to_list d)).*2)).

Lemma total_empty : total (∅ : gmap K Z) = 0.
Proof. by rewrite map_to_list_empty. Qed.

Lemma total_insert_fresh (d : gmap K Z) (k : K) (v : Z) :
  d !! k = None →
  total (<[k := v]> d) = (if decide (P k) then v else 0) + total d.
Proof.
  intros Hk.
  rewrite (sum_Permutation _ ((filter (λ kv : K * Z, P kv.1) ((k, v) :: map_to_list d)).*2)).
  - rewrite filter_cons. simpl. case_decide; [by rewrite fmap_cons, sum_cons | lia].
  - by rewrite (map_to_list_insert d k v Hk).
Qed.

Lemma total_insert_present (d : gmap K Z) (k : K) (v0 v : Z) :
  d !! k = Some v0 →
  total (<[k := v]> d) = total d + (if decide (P k) then v - v0 else 0).
Proof.
  intros Hk.
  rewrite <- (insert_delete_eq d k v).
  rewrite <- (insert_delete_id d k v0 Hk) at 2.
  rewrite !total_insert_fresh by apply lookup_delete_eq.
  case_decide; lia.
Qed.

Lemma total_count (d : gmap K Z) (x : K) :
  total (<[x := get0 d x + 1]> d) = total d + (if decide (P x) then 1 else 0).
Proof.
  unfold get0. destruct (d !! x) as [v|] eqn:Hx; simpl.
  - rewrite (total_insert_present d x v) by done. case_decide; lia.
  - rewrite total_insert_fresh by done. case_decide; lia.
Qed.

Lemma total_Counter_from (xs : list K) (c : gmap K Z) :
  total (foldl (λ c x, <[x := get0 c x + 1]> c) c xs)
  = total c + len (filter P xs).
Proof.
  revert c. induction xs as [|x xs IH]; intros c; simpl.
  - rewrite filter_nil, len_nil. lia.
  - rewrite IH, total_count, filter_cons.
    case_decide; rewrite ?len_cons; lia.
Qed.

Lemma total_Counter (xs : list K) : total (Counter xs) = len (filter P xs).
Proof. unfold Counter. rewrite total_Counter_from, total_empty. lia. Qed.

End DictFacts.

Section CounterFacts.

Context {K : Type} `{Countable K}.

Lemma values_total (d : gmap K Z) :
  sum (values d) = sum ((filter (λ kv : K * Z, True) (map_to_list d)).*2).
Proof.
  unfold values. f_equal. f_equal.
  induction (map_to_list d) as [|kv l IH]; [done|].
  by rewrite filter_cons_True, <- IH.
Qed.

Lemma sum_values_increment (d d' : gmap K Z) (k : K) :
  increment k d = Ok d' → sum (values d') = sum (values d) + 1.
Proof.
  unfold increment. destruct (d !! k) as [v|] eqn:Hk; [|done].
  intros [= <-]. rewrite !values_total.
  pose proof (total_insert_present (λ _, True) d k v (v + 1) Hk) as E.
  simpl in E. rewrite E. lia.
Qed.

Lemma get0_count (c : gmap K Z) (x y : K) :
  get0 (<[x := get0 c x + 1]> c) y
  = get0 c y + (if decide (x = y) then 1 else 0).
Proof.
  unfold get0 at 1. rewrite lookup_insert. case_decide; simpl.
  - subst. done.
  - unfold get0. lia.
Qed.

Lemma get0_Counter_from (xs : list K) (c : gmap K Z) (y : K) :
  get0 (foldl (λ c x, <[x := get0 c x + 1]> c) c xs) y
  = get0 c y + len (filter (λ x, x = y) xs).
Proof.
  revert c. induction xs as [|x xs IH]; intros c; simpl.
  - rewrite filter_nil, len_nil. lia.
  - rewrite IH, get0_count, filter_cons.
    case_decide; rewrite ?len_cons; lia.
Qed.

Lemma get0_Counter (xs : list K) (y : K) :
  get0 (Counter xs) y = len (filter (λ x, x = y) xs).
Proof. unfold Counter. rewrite get0_Counter_from. unfold get0. by rewrite lookup_empty. Qed.

End CounterFacts.

(** ** The result monad and true division *)

Lemma for_each_app {A S : Type} (body : S → A → result S) (xs ys : list A) (s : S) :
  for_each body (xs ++ ys) s = (s' ← for_each body xs s; for_each body ys s').
Proof.
  revert s. induction xs as [|x xs IH]; intros s; simpl; [done|].
  destruct (body s x) as [s'|e]; simpl; [apply IH | done].
Qed.

Lemma truediv_int (a b : Z) :
  b ≠ 0 →
  truediv (NInt a) (NInt b) = Ok (NFloat (Qred (inject_Z a / inject_Z b))).
Proof.
  intros Hb. unfold truediv. simpl Q_of_num.
  destruct (Qeq_bool (inject_Z b) 0) eqn:E; [|done].
  apply Qeq_bool_iff in E. unfold Qeq in E. simpl in E. lia.
Qed.

Lemma percent_of_total (a b : Z) : ∃ p, percent_of a b = Ok p.
Proof.
  unfold percent_of. destruct (0 <? b) eqn:E; [|eauto].
  apply Z.ltb_lt in E. rewrite truediv_int by lia. simpl. eauto.
Qed.

(** ** The triage of [Blacklist.py] *)

(** The proofs never look inside the word sets: [forget_sets] replaces them
    by variables, which keeps the propositional automation from comparing
    their contents. *)
Ltac forget_sets :=
  set (web := BLACKLIST_WEB_MARKUP) in *; clearbody web;
  set (eng := BLACKLIST_ENGLISH) in *; clearbody eng;
  set (frn := BLACKLIST_FOREIGN) in *; clearbody frn;
  set (prp := BLACKLIST_PROPER_NOUNS) in *; clearbody prp;
  set (abb := BLACKLIST_ABBREVIATIONS) in *; clearbody abb;
  set (nums := BLACKLIST_NUMBERS) in *; clearbody nums;
  set (cod := BLACKLIST_CODES) in *; clearbody cod;
  set (sng := BLACKLIST_SINGLE_CHARS) in *; clearbody sng;
  set (white := WHITELIST) in *; clearbody white.

Lemma in_FINAL_BLACKLIST (w : string) :
  w ∈ FINAL_BLACKLIST ↔
    w ∈ BLACKLIST_WEB_MARKUP ∨ w ∈ BLACKLIST_ENGLISH ∨ w ∈ BLACKLIST_FOREIGN ∨
    w ∈ BLACKLIST_PROPER_NOUNS ∨ w ∈ BLACKLIST_ABBREVIATIONS ∨
    w ∈ BLACKLIST_NUMBERS ∨ w ∈ BLACKLIST_CODES ∨ w ∈ BLACKLIST_SINGLE_CHARS.
Proof. unfold FINAL_BLACKLIST. forget_sets. rewrite !elem_of_union. tauto. Qed.

Lemma first_category_unfold (w : string) :
  first_category w =
    if decide (w ∈ BLACKLIST_WEB_MARKUP) then Some "web_markup"
    else if decide (w ∈ BLACKLIST_ENGLISH) then Some "english"
    else if decide (w ∈ BLACKLIST_FOREIGN) then Some "foreign"
    else if decide (w ∈ BLACKLIST_PROPER_NOUNS) then Some "proper_nouns"
    else if decide (w ∈ BLACKLIST_ABBREVIATIONS) then Some "abbreviations"
    else if decide (w ∈ BLACKLIST_NUMBERS) then Some "numbers"
    else if decide (w ∈ BLACKLIST_CODES) then Some "codes"
    else if decide (w ∈ BLACKLIST_SINGLE_CHARS) then Some "single_chars"
    else None.
Proof.
  unfold first_category, category_order. forget_sets.
  cbn [List.find snd].
  repeat (case_bool_decide; [case_decide; [reflexivity|tauto]|case_decide; [tauto|]]).
  reflexivity.
Qed.

Lemma initial_counter_keys (k : string) :
  is_Some (initial_removed_by_category !! k) ↔
    k ∈ ["web_markup"; "english"; "foreign"; "proper_nouns"; "abbreviations";
         "numbers"; "codes"; "single_chars"; "protected_by_whitelist"].
Proof.
  unfold initial_removed_by_category.
  rewrite !lookup_insert_is_Some', lookup_empty, is_Some_alt.
  rewrite !elem_of_cons, elem_of_nil. intuition congruence.
Qed.

Lemma first_category_counter (w k : string) :
  first_category w = Some k →
  k ≠ "protected_by_whitelist" ∧ is_Some (initial_removed_by_category !! k).
Proof.
  rewrite first_category_unfold, initial_counter_keys. intros Hf. forget_sets.
  repeat (case_decide; [injection Hf as <-; split; [done|set_solver]|]).
  done.
Qed.

Lemma whitelist_counter_key :
  is_Some (initial_removed_by_category !! "protected_by_whitelist").
Proof. exists 0. reflexivity. Qed.

Lemma initial_get0 (k : string) : get0 initial_removed_by_category k = 0.
Proof.
  unfold get0, initial_removed_by_category.
  rewrite !lookup_insert. repeat (case_decide; [done|]). by rewrite lookup_empty.
Qed.

Lemma initial_sum : sum (values initial_removed_by_category) = 0.
Proof. reflexivity. Qed.

Lemma has_counters_initial : has_counters initial_removed_by_category.
Proof. intros k Hk. exact Hk. Qed.

Lemma has_counters_insert (d : gmap string Z) (k : string) (v : Z) :
  has_counters d → has_counters (<[k := v]> d).
Proof. intros Hd j Hj. rewrite lookup_insert_is_Some'. right. by apply Hd. Qed.

Lemma has_counters_lookup (d : gmap string Z) (k : string) :
  has_counters d → is_Some (initial_removed_by_category !! k) → is_Some (d !! k).
Proof. intros Hd. apply Hd. Qed.

Lemma increment_present (d : gmap string Z) (k : string) :
  is_Some (d !! k) → increment k d = Ok (<[k := get0 d k + 1]> d).
Proof. intros [v Hv]. unfold increment, get0. by rewrite Hv. Qed.

Section TriageFacts.

Variable lower : string → string.

(** Each token falls in exactly one of three cases. *)
Lemma triage_cases (word : string) :
  (lower word ∈ WHITELIST ∧ should_keep_word lower word = true ∧
   counter_key (lower word) = Some "protected_by_whitelist") ∨
  ((lower word ∉ WHITELIST) ∧ should_keep_word lower word = false ∧
   (∃ k, first_category (lower word) = Some k ∧ counter_key (lower word) = Some k)) ∨
  ((lower word ∉ WHITELIST) ∧ should_keep_word lower word = true ∧
   first_category (lower word) = None ∧ counter_key (lower word) = None).
Proof.
  unfold should_keep_word, counter_key.
  rewrite first_category_unfold.
  pose proof (in_FINAL_BLACKLIST (lower word)) as Hfb.
  set (final := FINAL_BLACKLIST) in *. clearbody final. forget_sets.
  destruct (decide (lower word ∈ white)) as [Hw|Hw]; [by left|].
  right.
  destruct (decide (lower word ∈ final)) as [Hb|Hb]; rewrite Hfb in Hb.
  - left. repeat split; [done|].
    repeat (case_decide; [eauto|]). tauto.
  - right. repeat split; [done| |];
      repeat (case_decide; [tauto|]); done.
Qed.

Lemma clean_step_spec (cleaned : list string) (removed : gmap string Z) (word : string) :
  has_counters removed →
  clean_step lower (cleaned, removed) word =
    Ok (cleaned ++ (if should_keep_word lower word then [word] else []),
        match counter_key (lower word) with
        | Some k => <[k := get0 removed k + 1]> removed
        | None => removed
        end).
Proof.
  intros Hc.
  assert (∀ k, is_Some (initial_removed_by_category !! k) →
               increment k removed = Ok (<[k := get0 removed k + 1]> removed)) as Hinc.
  { intros k Hk. by apply increment_present, has_counters_lookup. }
  assert (∀ k, k ∈ ["web_markup"; "english"; "foreign"; "proper_nouns";
                     "abbreviations"; "numbers"; "codes"; "single_chars";
                     "protected_by_whitelist"] →
               increment k removed = Ok (<[k := get0 removed k + 1]> removed)) as Hin.
  { intros k Hk. by apply Hinc, initial_counter_keys. }
  clear Hinc Hc.
  unfold clean_step.
  destruct (triage_cases word) as [(Hw & -> & ->)|[(Hw & -> & k & Hf & ->)|(Hw & -> & Hf & ->)]].
  - forget_sets. rewrite decide_True by done.
    rewrite Hin by set_solver. done.
  - rewrite first_category_unfold in Hf. forget_sets.
    rewrite decide_False by done. rewrite app_nil_r.
    repeat (case_decide;
            [injection Hf as <-; rewrite Hin by set_solver; done|]).
    discriminate Hf.
  - rewrite first_category_unfold in Hf. forget_sets.
    rewrite decide_False by done.
    repeat (case_decide; [discriminate Hf|]). done.
Qed.

Lemma clean_loop_spec (words cleaned : list string) (removed : gmap string Z) :
  has_counters removed →
  ∃ removed',
    for_each (clean_step lower) words (cleaned, removed)
    = Ok (cleaned ++ filter (λ w, should_keep_word lower w = true) words, removed') ∧
    has_counters removed' ∧
    sum (values removed')
    = sum (values removed) + len (filter (λ w, is_Some (counter_key (lower w))) words) ∧
    ∀ k, get0 removed' k
         = get0 removed k + len (filter (λ w, counter_key (lower w) = Some k) words).
Proof.
  revert cleaned removed. induction words as [|word words IH]; intros cleaned removed Hc.
  - exists removed. cbn [for_each]. rewrite app_nil_r, !filter_nil, len_nil.
    repeat split; [done|lia|]. intros k. rewrite filter_nil, len_nil. lia.
  - cbn [for_each]. rewrite clean_step_spec by done. cbn [mbind result_bind].
    destruct (triage_cases word) as [(Hw & Hk & Hck)|[(Hw & Hk & k & Hf & Hck)|(Hw & Hk & Hf & Hck)]];
      rewrite Hk, Hck; clear Hw.
    + destruct (IH (cleaned ++ [word]) (<["protected_by_whitelist" := get0 removed "protected_by_whitelist" + 1]> removed))
        as (r & -> & Hr & Hs & Hg); [by apply has_counters_insert|].
      exists r. rewrite filter_cons_True by done. rewrite <- app_assoc.
      repeat split; [done| |].
      * rewrite Hs, filter_cons_True by (rewrite Hck; eexists; reflexivity).
        rewrite (sum_values_increment removed _ "protected_by_whitelist"), len_cons; [lia|].
        apply increment_present, has_counters_lookup; [done|].
        apply whitelist_counter_key.
      * intros j. rewrite Hg, get0_count, filter_cons, Hck.
        repeat case_decide; rewrite ?len_cons; try lia; congruence.
    + rewrite app_nil_r.
      destruct (IH cleaned (<[k := get0 removed k + 1]> removed))
        as (r & -> & Hr & Hs & Hg); [by apply has_counters_insert|].
      exists r. rewrite filter_cons_False by (rewrite Hk; done).
      repeat split; [done| |].
      * rewrite Hs, filter_cons_True by (rewrite Hck; eexists; reflexivity).
        rewrite (sum_values_increment removed _ k), len_cons; [lia|].
        apply increment_present, has_counters_lookup; [done|].
        by apply first_category_counter in Hf as [_ ?].
      * intros j. rewrite Hg, get0_count, filter_cons, Hck.
        repeat case_decide; rewrite ?len_cons; try lia; congruence.
    + destruct (IH (cleaned ++ [word]) removed) as (r & -> & Hr & Hs & Hg); [done|].
      exists r. rewrite filter_cons_True by done. rewrite <- app_assoc.
      repeat split; [done| |].
      * rewrite Hs, filter_cons_False; [lia|]. rewrite Hck. by intros [? ?].
      * intros j. rewrite Hg, filter_cons_False; [lia|]. rewrite Hck. done.
Qed.

Lemma clean_corpus_of_loop (words cleaned : list string) (removed : gmap string Z) :
  for_each (clean_step lower) words ([], initial_removed_by_category)
  = Ok (cleaned, removed) →
  ∃ stats, clean_corpus lower words = Ok (cleaned, stats) ∧
           removed_by_category stats = removed.
Proof.
  intros Hloop. unfold clean_corpus. rewrite Hloop. cbn [mbind result_bind].
  destruct (0 <? len words) eqn:E.
  - apply Z.ltb_lt in E. rewrite truediv_int by lia. cbn [mbind result_bind].
    eexists. split; reflexivity.
  - cbn [mbind result_bind]. eexists. split; reflexivity.
Qed.

Lemma clean_corpus_spec (words : list string) :
  ∃ stats,
    clean_corpus lower words
    = Ok (filter (λ w, should_keep_word lower w = true) words, stats) ∧
    sum (values (removed_by_category stats))
    = len (filter (λ w, is_Some (counter_key (lower w))) words) ∧
    ∀ k, get0 (removed_by_category stats) k
         = len (filter (λ w, counter_key (lower w) = Some k) words).
Proof.
  destruct (clean_loop_spec words [] initial_removed_by_category has_counters_initial)
    as (r & Hloop & Hr & Hs & Hg).
  rewrite app_nil_l in Hloop.
  destruct (clean_corpus_of_loop _ _ _ Hloop) as (stats & Hstats & <-).
  exists stats. rewrite initial_sum in Hs.
  repeat split; [exact Hstats|lia|]. intros k. rewrite Hg, initial_get0. lia.
Qed.

(** Kept tokens and charged tokens overlap exactly on the whitelisted ones. *)
Lemma kept_plus_charged (words : list string) :
  len (filter (λ w, should_keep_word lower w = true) words)
  + len (filter (λ w, is_Some (counter_key (lower w))) words)
  = len words + len (filter (λ w, lower w ∈ WHITELIST) words).
Proof.
  induction words as [|word words IH]; [by rewrite !filter_nil|].
  rewrite !filter_cons, len_cons.
  destruct (triage_cases word) as [(Hw & Hk & Hck)|[(Hw & Hk & k & Hf & Hck)|(Hw & Hk & Hf & Hck)]];
    rewrite Hk, Hck; clear Hk Hck; forget_sets.
  - rewrite (decide_True (P := true = true)) by reflexivity.
    rewrite (decide_True (P := is_Some _)) by (eexists; reflexivity).
    rewrite decide_True by exact Hw. rewrite !len_cons. lia.
  - rewrite (decide_False (P := false = true)) by discriminate.
    rewrite (decide_True (P := is_Some _)) by (eexists; reflexivity).
    rewrite decide_False by exact Hw. rewrite !len_cons. lia.
  - rewrite (decide_True (P := true = true)) by reflexivity.
    rewrite (decide_False (P := is_Some _)) by apply is_Some_None.
    rewrite decide_False by exact Hw. rewrite !len_cons. lia.
Qed.

Lemma charged_to_whitelist (words : list string) :
  filter (λ w, counter_key (lower w) = Some "protected_by_whitelist") words
  = filter (λ w, lower w ∈ WHITELIST) words.
Proof.
  apply list_filter_iff. intros word.
  destruct (triage_cases word) as [(Hw & Hk & Hck)|[(Hw & Hk & k & Hf & Hck)|(Hw & Hk & Hf & Hck)]];
    rewrite Hck; clear Hk Hck.
  - split; intros _; [exact Hw|reflexivity].
  - apply first_category_counter in Hf as [Hne _].
    split; [intros [= E]; destruct (Hne E)|intros Hin; destruct (Hw Hin)].
  - split; [intros [=]|intros Hin; destruct (Hw Hin)].
Qed.

(** A token outside the whitelist is charged to its first category. *)
Lemma counter_key_blacklisted (word k : string) :
  k ≠ "protected_by_whitelist" →
  counter_key (lower word) = Some k ↔
  (lower word ∉ WHITELIST) ∧ first_category (lower word) = Some k.
Proof.
  intros Hne. unfold counter_key.
  destruct (decide (lower word ∈ WHITELIST)) as [Hw|Hw].
  - split; [intros [= E]; destruct (Hne (eq_sym E))|intros [Hn _]; destruct (Hn Hw)].
  - split; [intros E; split; [exact Hw|exact E]|intros [_ E]; exact E].
Qed.

End TriageFacts.

(** [List.find] returns the first element that passes the test. *)
Lemma find_first {A : Type} (p : A → bool) (l : list A) (x : A) :
  List.find p l = Some x →
  ∃ n : nat, l !! n = Some x ∧ p x = true ∧
             ∀ (m : nat) (y : A), (m < n)%nat → l !! m = Some y → p y = false.
Proof.
  induction l as [|a l IH]; [discriminate|].
  cbn [List.find]. destruct (p a) eqn:Ea.
  - intros [= <-]. exists 0%nat. repeat split; [exact Ea|]. intros m y Hm. lia.
  - intros Hf. destruct (IH Hf) as (n & Hn & Hp & Hmin).
    exists (S n). repeat split; [exact Hn|exact Hp|].
    intros [|m] y Hm Hy.
    + injection Hy as <-. exact Ea.
    + apply (Hmin m); [lia|exact Hy].
Qed.

Lemma find_is_Some {A : Type} (p : A → bool) (l : list A) (x : A) :
  x ∈ l → p x = true → is_Some (List.find p l).
Proof.
  induction 1 as [x l|x a l _ IH]; intros Hp; cbn [List.find].
  - rewrite Hp. eexists; reflexivity.
  - destruct (p a); [eexists; reflexivity|exact (IH Hp)].
Qed.

Lemma first_category_first (w key : string) :
  first_category w = Some key →
  ∃ (n : nat) (set : gset string),
    category_order !! n = Some (key, set) ∧ w ∈ set ∧
    ∀ (m : nat) (c : string * gset string),
      (m < n)%nat → category_order !! m = Some c → w ∉ c.2.
Proof.
  unfold first_category.
  destruct (List.find _ category_order) as [[key' set]|] eqn:Hf; [|discriminate].
  intros [= <-].
  destruct (find_first _ _ _ Hf) as (n & Hn & Hp & Hmin).
  exists n, set. repeat split; [exact Hn|exact (bool_decide_unpack _ (Is_true_true_2 _ Hp))|].
  intros m c Hm Hc Hin. specialize (Hmin m c Hm Hc).
  apply bool_decide_eq_false in Hmin. exact (Hmin Hin).
Qed.

Lemma first_category_is_Some (w : string) (c : string * gset string) :
  c ∈ category_order → w ∈ c.2 → is_Some (first_category w).
Proof.
  intros Hc Hw. unfold first_category.
  destruct (find_is_Some (λ c, bool_decide (w ∈ c.2)) category_order c Hc) as [x Hx].
  - apply bool_decide_eq_true. exact Hw.
  - rewrite Hx. eexists; reflexivity.
Qed.

(** ** Claims on the cleaning pass *)

(** C1, as stated, fails: on the single whitelisted token "w" the kept list
    has one element and [protected_by_whitelist] is one as well, so the kept
    count plus the sum of all counters is 2, not 1. *)
Lemma C1_kept_plus_all_counters_exceeds_input :
  ∃ kept stats,
    clean_corpus Py.lower ["w"] = Ok (kept, stats) ∧
    len kept + sum (values (removed_by_category stats)) ≠ len ["w"].
Proof.
  eexists _, _. split; [vm_compute; reflexivity|].
  vm_compute. discriminate.
Qed.

(** C1, amended: [clean_corpus] always returns, and the kept count plus the
    sum of all counters of [removed_by_category] equals the input length plus
    the counter [protected_by_whitelist], which counts the whitelisted tokens
    (they are kept, and counted too). *)
Theorem C1_kept_plus_counters (lower : string → string) (words : list string) :
  ∃ kept stats,
    clean_corpus lower words = Ok (kept, stats) ∧
    len kept + sum (values (removed_by_category stats))
    = len words + get0 (removed_by_category stats) "protected_by_whitelist" ∧
    get0 (removed_by_category stats) "protected_by_whitelist"
    = len (filter (λ w, lower w ∈ WHITELIST) words).
Proof.
  destruct (clean_corpus_spec lower words) as (stats & Hrun & Hsum & Hget).
  eexists _, stats. split; [exact Hrun|].
  rewrite Hsum, Hget, charged_to_whitelist.
  split; [apply kept_plus_charged|reflexivity].
Qed.

(** C2: a token whose lowercased form is whitelisted passes
    [should_keep_word]; [clean_corpus] keeps every occurrence of it, and no
    blacklist counter counts a whitelisted token. *)
Theorem C2_whitelist_wins (lower : string → string) (t : string) :
  lower t ∈ WHITELIST →
  should_keep_word lower t = true ∧
  ∀ words, ∃ kept stats,
    clean_corpus lower words = Ok (kept, stats) ∧
    filter (λ w, w = t) kept = filter (λ w, w = t) words ∧
    ∀ k, k ≠ "protected_by_whitelist" →
         get0 (removed_by_category stats) k
         = len (filter (λ w, (lower w ∉ WHITELIST) ∧ first_category (lower w) = Some k) words).
Proof.
  intros Ht.
  assert (should_keep_word lower t = true) as Hkeep.
  { unfold should_keep_word. rewrite decide_True by exact Ht. reflexivity. }
  split; [exact Hkeep|]. intros words.
  destruct (clean_corpus_spec lower words) as (stats & Hrun & _ & Hget).
  eexists _, stats. split; [exact Hrun|]. split.
  - rewrite list_filter_filter. apply list_filter_iff. intros w.
    split; [intros [Hw _]; exact Hw|intros ->; split; [reflexivity|exact Hkeep]].
  - intros k Hk. rewrite Hget. f_equal. apply list_filter_iff. intros w.
    apply counter_key_blacklisted, Hk.
Qed.

Lemma C2_whitelist_wins_witness :
  should_keep_word Py.lower "W" = true ∧
  ∀ words, ∃ kept stats,
    clean_corpus Py.lower words = Ok (kept, stats) ∧
    filter (λ w, w = "W") kept = filter (λ w, w = "W") words ∧
    ∀ k, k ≠ "protected_by_whitelist" →
         get0 (removed_by_category stats) k
         = len (filter (λ w, (Py.lower w ∉ WHITELIST) ∧ first_category (Py.lower w) = Some k) words).
Proof.
  apply (C2_whitelist_wins Py.lower "W").
  apply (bool_decide_unpack _). vm_compute. exact I.
Defined.

(** C4: a token outside the whitelist that lies in some blacklist category
    (in particular in several) is charged to the first category of the fixed
    order that holds it, and to no other: with the token at any place of the
    input, the kept output is what it is without the token, and exactly that
    one counter is one higher. *)
Theorem C4_first_category_charged
    (lower : string → string) (w : string) (c : string * gset string) :
  lower w ∉ WHITELIST → c ∈ category_order → lower w ∈ c.2 →
  ∃ (n : nat) (key : string) (set : gset string),
    category_order !! n = Some (key, set) ∧ lower w ∈ set ∧
    (∀ (m : nat) (c' : string * gset string),
       (m < n)%nat → category_order !! m = Some c' → lower w ∉ c'.2) ∧
    ∀ before after, ∃ kept stats stats',
      clean_corpus lower (before ++ after) = Ok (kept, stats) ∧
      clean_corpus lower (before ++ w :: after) = Ok (kept, stats') ∧
      ∀ k, get0 (removed_by_category stats') k
           = get0 (removed_by_category stats) k + (if decide (k = key) then 1 else 0).
Proof.
  intros Hw Hc Hin.
  destruct (first_category_is_Some (lower w) c Hc Hin) as [key Hkey].
  destruct (first_category_first _ _ Hkey) as (n & set & Hn & Hset & Hmin).
  exists n, key, set. repeat split; [exact Hn|exact Hset|exact Hmin|].
  intros before after.
  destruct (clean_corpus_spec lower (before ++ after)) as (stats & Hrun & _ & Hget).
  destruct (clean_corpus_spec lower (before ++ w :: after)) as (stats' & Hrun' & _ & Hget').
  assert (counter_key (lower w) = Some key) as Hck.
  { unfold counter_key. rewrite decide_False by exact Hw. exact Hkey. }
  assert (should_keep_word lower w = false) as Hdrop.
  { destruct (triage_cases lower w) as [(Hw' & _)|[(_ & Hk & _)|(_ & _ & Hf & _)]].
    - destruct (Hw Hw').
    - exact Hk.
    - rewrite Hf in Hkey. discriminate Hkey. }
  eexists _, stats, stats'. split; [exact Hrun|]. split.
  - rewrite Hrun'. do 2 f_equal.
    rewrite !filter_app, filter_cons_False; [reflexivity|].
    rewrite Hdrop. discriminate.
  - intros k. rewrite Hget, Hget', !filter_app, filter_cons, Hck, !len_app.
    destruct (decide (Some key = Some k)) as [E|E], (decide (k = key)) as [E'|E'];
      rewrite ?len_cons; try lia.
    + destruct E'. congruence.
    + destruct E. congruence.
Qed.

Lemma C4_first_category_charged_witness :
  ∃ (n : nat) (key : string) (set : gset string),
    category_order !! n = Some (key, set) ∧ Py.lower "PL" ∈ set ∧
    (∀ (m : nat) (c' : string * gset string),
       (m < n)%nat → category_order !! m = Some c' → Py.lower "PL" ∉ c'.2) ∧
    ∀ before after, ∃ kept stats stats',
      clean_corpus Py.lower (before ++ after) = Ok (kept, stats) ∧
      clean_corpus Py.lower (before ++ "PL" :: after) = Ok (kept, stats') ∧
      ∀ k, get0 (removed_by_category stats') k
           = get0 (removed_by_category stats) k + (if decide (k = key) then 1 else 0).
Proof.
  apply (C4_first_category_charged Py.lower "PL" ("codes", BLACKLIST_CODES)).
  - apply (bool_decide_unpack _). vm_compute. exact I.
  - apply (bool_decide_unpack _). vm_compute. exact I.
  - apply (bool_decide_unpack _). vm_compute. exact I.
Defined.

(** C9: the kept output of [clean_corpus] is the input filtered by
    [should_keep_word], in order. *)
Theorem C9_clean_corpus_filters_by_should_keep_word
    (lower : string → string) (ws : list string) :
  ∃ stats,
    clean_corpus lower ws
    = Ok (filter (λ w, should_keep_word lower w = true) ws, stats).
Proof.
  destruct (clean_corpus_spec lower ws) as (stats & Hrun & _).
  exists stats. exact Hrun.
Qed.

(** ** The n-gram tables of [main] *)

Lemma range_nonpos (n : Z) : n ≤ 0 → range n = [].
Proof. intros Hn. unfold range. replace (Z.to_nat n) with 0%nat by lia. reflexivity. Qed.

Lemma range_S (n : nat) :
  range (Z.of_nat (S n)) = range (Z.of_nat n) ++ [Z.of_nat n].
Proof.
  unfold range. rewrite !Nat2Z.id, seq_S, fmap_app. reflexivity.
Qed.

Lemma getitem_lookup {A : Type} (l : list A) (n : nat) (x : A) :
  l !! n = Some x → getitem l (Z.of_nat n) = Ok x.
Proof.
  intros Hx. pose proof (lookup_lt_Some _ _ _ Hx) as Hlt.
  unfold getitem, len.
  destruct (Z.of_nat n <? 0) eqn:E; [apply Z.ltb_lt in E; lia|].
  replace (0 <=? Z.of_nat n) with true by (symmetry; apply Z.leb_le; lia).
  replace (Z.of_nat n <? Z.of_nat (length l)) with true by (symmetry; apply Z.ltb_lt; lia).
  cbn [andb]. rewrite Nat2Z.id, Hx. reflexivity.
Qed.

Lemma word_bigrams_prefix (words : list string) (n : nat) :
  (n ≤ length words - 1)%nat →
  for_each
    (λ acc i,
       a ← getitem words i;
       b ← getitem words (i + 1);
       Ok (acc ++ [(a, b)]))
    (range (Z.of_nat n)) []
  = Ok (take n (zip words (tail words))).
Proof.
  induction n as [|n IH]; intros Hn; [reflexivity|].
  rewrite range_S, for_each_app, IH by lia. cbn [mbind result_bind for_each].
  destruct (lookup_lt_is_Some_2 words n) as [a Ha]; [lia|].
  destruct (lookup_lt_is_Some_2 words (S n)) as [b Hb]; [lia|].
  rewrite (getitem_lookup _ _ _ Ha). cbn [mbind result_bind].
  replace (Z.of_nat n + 1) with (Z.of_nat (S n)) by lia.
  rewrite (getitem_lookup _ _ _ Hb). cbn [mbind result_bind].
  f_equal. symmetry. apply take_S_r.
  rewrite lookup_zip_with, lookup_tail, Ha, Hb. reflexivity.
Qed.

(** The index loop never runs off the list: the bigrams are the adjacent
    pairs. *)
Lemma word_bigrams_zip (words : list string) :
  word_bigrams words = Ok (zip words (tail words)).
Proof.
  unfold word_bigrams, len. destruct words as [|w words]; [reflexivity|].
  replace (Z.of_nat (length (w :: words)) - 1) with (Z.of_nat (length words))
    by (cbn [length]; lia).
  rewrite word_bigrams_prefix by (cbn [length]; lia).
  f_equal. apply take_ge.
  rewrite length_zip_with. cbn [tail length]. lia.
Qed.

(** Among the adjacent pairs, those that start with [w1] are the occurrences
    of [w1] other than a final one. *)
Lemma pairs_starting_with (w1 : string) (words : list string) :
  len (filter (λ p : string * string, p.1 = w1) (zip words (tail words)))
  = len (filter (λ w, w = w1) words)
    - (if decide (last words = Some w1) then 1 else 0).
Proof.
  induction words as [|a [|b words] IH].
  - rewrite decide_False by discriminate. reflexivity.
  - cbn [zip zip_with tail]. rewrite filter_nil, filter_cons, filter_nil, last_singleton.
    destruct (decide (a = w1)) as [->|Hne].
    + rewrite decide_True by reflexivity. unfold len. cbn [length]. lia.
    + rewrite decide_False by (intros [= E]; destruct (Hne E)). reflexivity.
  - cbn [zip zip_with tail] in *. rewrite last_cons_cons.
    rewrite (filter_cons (λ p : string * string, p.1 = w1) (a, b)).
    rewrite (filter_cons (λ w, w = w1) a). cbn [fst].
    destruct (decide (a = w1)); rewrite ?len_cons, IH; lia.
Qed.

Lemma continuation_total_Counter (w1 : string) (pairs : list (string * string)) :
  continuation_total w1 (Counter pairs)
  = len (filter (λ p : string * string, p.1 = w1) pairs).
Proof.
  unfold continuation_total.
  exact (total_Counter (λ k : string * string, k.1 = w1) pairs).
Qed.

(** ** Smoothing *)

Lemma good_turing_step_ok (fof : gmap Z Z) (adjusted : gmap Z num) (f c : Z) :
  (is_Some (fof !! (f + 1)) → c ≠ 0) →
  good_turing_step fof adjusted (f, c)
  = Ok (<[f := good_turing_value fof f c]> adjusted).
Proof.
  intros Hc. unfold good_turing_step, good_turing_value, contains, subscript.
  destruct (fof !! (f + 1)) as [next|] eqn:Hnext.
  - rewrite bool_decide_eq_true_2 by (eexists; reflexivity).
    cbn [mbind result_bind].
    rewrite truediv_int by (apply Hc; eexists; reflexivity). reflexivity.
  - rewrite bool_decide_eq_false_2 by (intros [? [=]]). reflexivity.
Qed.

Lemma good_turing_loop (fof : gmap Z Z) (items : list (Z * Z)) (adjusted : gmap Z num) :
  Forall (λ item, is_Some (fof !! (item.1 + 1)) → item.2 ≠ 0) items →
  NoDup items.*1 →
  ∃ result,
    for_each (good_turing_step fof) items adjusted = Ok result ∧
    (∀ f, f ∉ items.*1 → result !! f = adjusted !! f) ∧
    (∀ f c, (f, c) ∈ items → result !! f = Some (good_turing_value fof f c)).
Proof.
  revert adjusted. induction items as [|[f0 c0] items IH]; intros adjusted Hok Hnd.
  - exists adjusted. split; [reflexivity|]. split; [reflexivity|]. intros f c Hin.
    apply elem_of_nil in Hin. destruct Hin.
  - apply Forall_cons in Hok as [Hc0 Hok].
    rewrite fmap_cons in Hnd. apply NoDup_cons in Hnd as [Hf0 Hnd].
    cbn [for_each]. rewrite good_turing_step_ok by exact Hc0.
    cbn [mbind result_bind].
    destruct (IH (<[f0 := good_turing_value fof f0 c0]> adjusted) Hok Hnd)
      as (result & Hrun & Hout & Hin).
    exists result. split; [exact Hrun|]. split.
    + intros f Hf. rewrite fmap_cons in Hf. apply not_elem_of_cons in Hf as [Hne Hf].
      cbn [fst] in Hne. rewrite (Hout f Hf). apply lookup_insert_ne. congruence.
    + intros f c Hfc. apply elem_of_cons in Hfc as [[= -> ->]|Hfc].
      * rewrite (Hout f0 Hf0). apply lookup_insert_eq.
      * exact (Hin f c Hfc).
Qed.

Lemma good_turing_smoothing_guarded (fof : gmap Z Z) :
  guarded fof →
  ∃ adjusted,
    good_turing_smoothing fof = Ok adjusted ∧
    ∀ f, adjusted !! f = good_turing_value fof f <$> fof !! f.
Proof.
  intros Hg. unfold good_turing_smoothing.
  destruct (good_turing_loop fof (map_to_list fof) ∅) as (adjusted & Hrun & Hout & Hin).
  - apply Forall_forall. intros [f c] Hfc. apply elem_of_map_to_list in Hfc.
    exact (Hg f c Hfc).
  - apply NoDup_fst_map_to_list.
  - exists adjusted. split; [exact Hrun|]. intros f.
    destruct (fof !! f) as [c|] eqn:Hf.
    + apply Hin, elem_of_map_to_list, Hf.
    + rewrite Hout; [apply lookup_empty|].
      intros Hmem. apply list_elem_of_fmap in Hmem as ([f' c] & -> & Hfc).
      apply elem_of_map_to_list in Hfc. cbn [fst] in Hf. congruence.
Qed.




(** ** The quality metrics *)

(** Every division of [compute_corpus_quality] sits behind its guard. *)
Lemma compute_corpus_quality_total
    (words : list string) (lexical_model : list (string * lex_entry)) :
  ∃ metrics, compute_corpus_quality words lexical_model = Ok metrics.
Proof.
  unfold compute_corpus_quality.
  assert (∃ ttr, (if 0 <? len words
                  then truediv (NInt (Z.of_nat (size (list_to_set words : gset string))))
                               (NInt (len words))
                  else Ok (NInt 0)) = Ok ttr) as [ttr ->].
  { destruct (0 <? len words) eqn:E; [|eauto].
    apply Z.ltb_lt in E. rewrite truediv_int by lia. eauto. }
  cbn [mbind result_bind].
  repeat match goal with
         | |- context [percent_of ?a ?b] =>
             let p := fresh "p" in
             destruct (percent_of_total a b) as [p ->]; cbn [mbind result_bind]
         end.
  assert (∃ avg, (if 0 <? len words
                  then truediv (NInt (sum (str_len <$> words))) (NInt (len words))
                  else Ok (NInt 0)) = Ok avg) as [avg ->].
  { destruct (0 <? len words) eqn:E; [|eauto].
    apply Z.ltb_lt in E. rewrite truediv_int by lia. eauto. }
  cbn [mbind result_bind].
  repeat match goal with
         | |- context [percent_of ?a ?b] =>
             let p := fresh "p" in
             destruct (percent_of_total a b) as [p ->]; cbn [mbind result_bind]
         end.
  destruct (1000 <=? len words) eqn:E.
  - apply Z.leb_le in E.
    assert (100 ≤ len words / 10) by (apply Z.div_le_lower_bound; lia).
    rewrite truediv_int by lia. cbn [mbind result_bind]. eauto.
  - cbn [mbind result_bind]. eauto.
Qed.

(** ** Claims on the tables, the metrics and the smoothing *)

(** C3: the bigram table is always built; the counts of the bigrams that
    start with [w1] add up to the unigram count of [w1], less one when [w1]
    is the final token. Hence the total never exceeds the unigram count and
    equals it unless [w1] ends the list. *)
Theorem C3_bigram_continuations (words : list string) (w1 : string) :
  ∃ table,
    bigram_freq words = Ok table ∧
    continuation_total w1 table ≤ get0 (word_freq words) w1 ∧
    continuation_total w1 table
    = get0 (word_freq words) w1 - (if decide (last words = Some w1) then 1 else 0).
Proof.
  unfold bigram_freq, word_freq. rewrite word_bigrams_zip.
  eexists. split; [reflexivity|].
  rewrite continuation_total_Counter, get0_Counter, pairs_starting_with.
  case_decide; split; lia.
Qed.

(** C5: add-one smoothing is [(B(w1,w2)+1) / (U(w1)+|U|)] when [U(w1)] is
    positive: the call returns that quotient whenever it is within the
    range of a float, and whenever the call returns, that quotient is what
    it returns; the result is [0] when [w1] is absent from [U] or counted
    zero; the example of the spec evaluates to one half. *)
Theorem C5_add_one_smoothed_prob :
  (∀ (w1 w2 : string) (B : gmap (string * string) Z) (U : gmap string Z),
     0 < get0 U w1 →
     fits_float (get0 B (w1, w2) + 1) (get0 U w1 + Z.of_nat (size U)) = true →
     ∃ q, add_one_smoothed_prob w1 w2 B U = Ok (NFloat q) ∧
          (q == inject_Z (get0 B (w1, w2) + 1) / inject_Z (get0 U w1 + Z.of_nat (size U)))%Q) ∧
  (∀ (w1 w2 : string) (B : gmap (string * string) Z) (U : gmap string Z) (r : num),
     0 < get0 U w1 →
     add_one_smoothed_prob w1 w2 B U = Ok r →
     ∃ q, r = NFloat q ∧
          (q == inject_Z (get0 B (w1, w2) + 1) / inject_Z (get0 U w1 + Z.of_nat (size U)))%Q) ∧
  (∀ (w1 w2 : string) (B : gmap (string * string) Z) (U : gmap string Z),
     U !! w1 = None ∨ U !! w1 = Some 0 →
     add_one_smoothed_prob w1 w2 B U = Ok (NInt 0)) ∧
  add_one_smoothed_prob "to" "je" example_bigram_freq example_word_freq
  = Ok (NFloat (1 # 2)%Q).
Proof.
  assert (∀ (w1 w2 : string) (B : gmap (string * string) Z) (U : gmap string Z),
            0 < get0 U w1 →
            add_one_smoothed_prob w1 w2 B U
            = Ok (NFloat (Qred (inject_Z (get0 B (w1, w2) + 1)
                                / inject_Z (get0 U w1 + Z.of_nat (size U)))))) as Hrun.
  { intros w1 w2 B U Hpos. unfold add_one_smoothed_prob.
    replace (0 <? get0 U w1) with true by (symmetry; apply Z.ltb_lt; exact Hpos).
    rewrite truediv_int by lia. reflexivity. }
  split; [|split; [|split]].
  - intros w1 w2 B U Hpos _. rewrite Hrun by exact Hpos.
    eexists. split; [reflexivity|]. apply Qred_correct.
  - intros w1 w2 B U r Hpos Hret. rewrite Hrun in Hret by exact Hpos.
    injection Hret as <-. eexists. split; [reflexivity|]. apply Qred_correct.
  - intros w1 w2 B U Habs. unfold add_one_smoothed_prob.
    replace (get0 U w1) with 0; [reflexivity|].
    unfold get0. destruct Habs as [-> | ->]; reflexivity.
  - vm_compute. reflexivity.
Qed.

Lemma C5_add_one_smoothed_prob_witness :
  (∃ q, add_one_smoothed_prob "to" "je" example_bigram_freq example_word_freq
        = Ok (NFloat q) ∧
        (q == inject_Z (get0 example_bigram_freq ("to", "je") + 1)
              / inject_Z (get0 example_word_freq "to" + Z.of_nat (size example_word_freq)))%Q) ∧
  (∃ q, NFloat (1 # 2)%Q = NFloat q ∧
        (q == inject_Z (get0 example_bigram_freq ("to", "je") + 1)
              / inject_Z (get0 example_word_freq "to" + Z.of_nat (size example_word_freq)))%Q) ∧
  add_one_smoothed_prob "w" "je" example_bigram_freq example_word_freq
  = Ok (NInt 0).
Proof.
  split; [|split].
  - apply (proj1 C5_add_one_smoothed_prob); vm_compute; reflexivity.
  - apply (proj1 (proj2 C5_add_one_smoothed_prob)); vm_compute; reflexivity.
  - apply (proj1 (proj2 (proj2 C5_add_one_smoothed_prob))). left. vm_compute. reflexivity.
Defined.

(** C6, as stated, fails: on [{1: 0, 2: 40}] the division by the count of
    frequency 1 raises, so no mapping is returned. *)
Lemma C6_zero_count_returns_no_mapping :
  good_turing_smoothing zero_count_freq_of_freqs = Raise ZeroDivisionError ∧
  ¬ ∃ adjusted, good_turing_smoothing zero_count_freq_of_freqs = Ok adjusted.
Proof.
  assert (good_turing_smoothing zero_count_freq_of_freqs = Raise ZeroDivisionError) as E
    by (vm_compute; reflexivity).
  split; [exact E|]. intros [adjusted Hok]. rewrite E in Hok. discriminate Hok.
Qed.

(** C6, amended: on a mapping in which every frequency whose successor is
    observed has a nonzero count and a quotient within the range of a
    float, the result has the same keys, with [(f+1) * N(f+1) / N(f)] at
    [f] when [f+1] is observed and [f] itself otherwise; on
    [{1: 100, 2: 40}] that is 0.8 at 1 and 2 at 2. *)
Theorem C6_good_turing_adjusted :
  (∀ fof : gmap Z Z,
     guarded fof →
     quotients_fit fof →
     ∃ adjusted,
       good_turing_smoothing fof = Ok adjusted ∧
       dom adjusted = dom fof ∧
       ∀ f c, fof !! f = Some c →
         match fof !! (f + 1) with
         | Some next =>
             ∃ q, adjusted !! f = Some (NFloat q) ∧
                  (q == inject_Z ((f + 1) * next) / inject_Z c)%Q
         | None => adjusted !! f = Some (NInt f)
         end) ∧
  ∃ adjusted,
    good_turing_smoothing example_freq_of_freqs = Ok adjusted ∧
    adjusted !! 1 = Some (NFloat (4 # 5)%Q) ∧
    adjusted !! 2 = Some (NInt 2).
Proof.
  split.
  - intros fof Hg _.
    destruct (good_turing_smoothing_guarded fof Hg) as (adjusted & Hrun & Hlook).
    exists adjusted. split; [exact Hrun|]. split.
    + apply set_eq. intros f. rewrite !elem_of_dom, Hlook. apply fmap_is_Some.
    + intros f c Hf. rewrite Hlook, Hf. cbn [fmap option_fmap option_map].
      unfold good_turing_value. destruct (fof !! (f + 1)) as [next|]; [|reflexivity].
      eexists. split; [reflexivity|]. apply Qred_correct.
  - eexists. split; [vm_compute; reflexivity|].
    split; vm_compute; reflexivity.
Qed.

Lemma C6_good_turing_adjusted_witness :
  ∃ adjusted,
    good_turing_smoothing example_freq_of_freqs = Ok adjusted ∧
    dom adjusted = dom example_freq_of_freqs.
Proof.
  destruct (proj1 C6_good_turing_adjusted example_freq_of_freqs) as (adjusted & Hrun & Hdom & _).
  - apply (bool_decide_unpack _). vm_compute. exact I.
  - apply (bool_decide_unpack _). vm_compute. exact I.
  - exists adjusted. split; [exact Hrun|exact Hdom].
Defined.

(** C7: on no tokens and an empty lexical model the metrics are computed
    without an exception, and every one of them is zero. *)
Theorem C7_empty_corpus_metrics :
  compute_corpus_quality [] []
  = Ok {| type_token_ratio := NInt 0;
          hapax_legomena := NInt 0;
          hapax_percentage := NInt 0;
          dis_legomena := NInt 0;
          dis_percentage := NInt 0;
          avg_word_length := NInt 0;
          top_10_coverage := NInt 0;
          top_100_coverage := NInt 0;
          top_1000_coverage := NInt 0;
          vocab_growth_rate := NInt 0 |}.
Proof. vm_compute. reflexivity. Qed.

(** C8: with fewer than two tokens the bigram table is built and empty, and
    with fewer than three tokens so is the trigram table. *)
Theorem C8_short_input_empty_ngrams (words : list string) :
  (len words < 2 → bigram_freq words = Ok ∅) ∧
  (len words < 3 → trigram_freq words = Ok ∅).
Proof.
  unfold bigram_freq, trigram_freq, word_bigrams, word_trigrams.
  split; intros Hlen; rewrite range_nonpos by lia; reflexivity.
Qed.

Lemma C8_short_input_empty_ngrams_witness :
  bigram_freq ["to"] = Ok ∅ ∧ trigram_freq ["to"; "je"] = Ok ∅.
Proof.
  split.
  - apply (proj1 (C8_short_input_empty_ngrams ["to"])). vm_compute. reflexivity.
  - apply (proj2 (C8_short_input_empty_ngrams ["to"; "je"])). vm_compute. reflexivity.
Defined.



(** * Further properties of the cleaning pass *)

Lemma lists_disjoint (w : string) : w ∈ WHITELIST → w ∉ FINAL_BLACKLIST.
Proof.
  assert (FINAL_BLACKLIST ∩ WHITELIST = ∅) as Hdisj
    by (apply (bool_decide_unpack _); vm_compute; exact I).
  intros Hw Hb.
  assert (w ∈ FINAL_BLACKLIST ∩ WHITELIST) as Hin by (apply elem_of_intersection; split; assumption).
  rewrite Hdisj in Hin. exact (not_elem_of_empty w Hin).
Qed.

(** X1: with the lists as shipped, [validate_lists] finds no conflict, so the
    whitelist never overrides the blacklist: a word is kept exactly when its
    lowercase form is not blacklisted. *)
Theorem X1_lists_do_not_conflict (lower : string → string) (word : string) :
  validate_lists = true ∧
  should_keep_word lower word = bool_decide (lower word ∉ FINAL_BLACKLIST).
Proof.
  split; [vm_compute; reflexivity|].
  unfold should_keep_word.
  destruct (decide (lower word ∈ WHITELIST)) as [Hw|Hw].
  - symmetry. apply bool_decide_eq_true_2. exact (lists_disjoint _ Hw).
  - destruct (decide (lower word ∈ FINAL_BLACKLIST)) as [Hb|Hb].
    + symmetry. apply bool_decide_eq_false_2. intros Hn. exact (Hn Hb).
    + symmetry. apply bool_decide_eq_true_2. exact Hb.
Qed.

Lemma counter_key_is_counter (w k : string) :
  counter_key w = Some k → is_Some (initial_removed_by_category !! k).
Proof.
  unfold counter_key. destruct (decide (w ∈ WHITELIST)) as [_|_].
  - intros [= <-]. exact whitelist_counter_key.
  - intros Hf. exact (proj2 (first_category_counter _ _ Hf)).
Qed.

Lemma clean_loop_dom (lower : string → string)
    (words cleaned cleaned' : list string) (removed removed' : gmap string Z) :
  has_counters removed →
  for_each (clean_step lower) words (cleaned, removed) = Ok (cleaned', removed') →
  dom removed' = dom removed.
Proof.
  revert cleaned removed. induction words as [|word words IH]; intros cleaned removed Hc.
  - cbn [for_each]. intros [= _ <-]. reflexivity.
  - cbn [for_each]. rewrite clean_step_spec by exact Hc. cbn [mbind result_bind].
    destruct (counter_key (lower word)) as [k|] eqn:Hk.
    + intros Hrun. rewrite (IH _ _ (has_counters_insert _ _ _ Hc) Hrun).
      apply dom_insert_lookup_L, Hc, (counter_key_is_counter _ _ Hk).
    + intros Hrun. exact (IH _ _ Hc Hrun).
Qed.

(** Everything [clean_corpus] reports, in terms of the input. *)
Lemma clean_corpus_report (lower : string → string) (words : list string) :
  ∃ stats,
    clean_corpus lower words
    = Ok (filter (λ w, should_keep_word lower w = true) words, stats) ∧
    original_words stats = len words ∧
    cleaned_words stats = len (filter (λ w, should_keep_word lower w = true) words) ∧
    removed_words stats = original_words stats - cleaned_words stats ∧
    percentage_removed stats
    = (if 0 <? len words
       then NFloat (Qred (Qred (inject_Z (removed_words stats) / inject_Z (len words))
                          * inject_Z 100))
       else NInt 0) ∧
    dom (removed_by_category stats) = dom initial_removed_by_category ∧
    ∀ k, get0 (removed_by_category stats) k
         = len (filter (λ w, counter_key (lower w) = Some k) words).
Proof.
  destruct (clean_loop_spec lower words [] initial_removed_by_category has_counters_initial)
    as (r & Hloop & _ & _ & Hg).
  pose proof (clean_loop_dom lower _ _ _ _ _ has_counters_initial Hloop) as Hdom.
  rewrite app_nil_l in Hloop.
  unfold clean_corpus. rewrite Hloop. cbn [mbind result_bind].
  destruct (0 <? len words) eqn:E.
  - apply Z.ltb_lt in E. rewrite truediv_int by lia. cbn [mbind result_bind].
    eexists. split; [reflexivity|]. cbn.
    repeat split; [exact Hdom|]. intros k. rewrite Hg, initial_get0. lia.
  - cbn [mbind result_bind]. eexists. split; [reflexivity|]. cbn.
    repeat split; [exact Hdom|]. intros k. rewrite Hg, initial_get0. lia.
Qed.

Lemma sum_fmap_plus {A : Type} (g h : A → Z) (l : list A) :
  sum ((λ x, g x + h x) <$> l) = sum (g <$> l) + sum (h <$> l).
Proof.
  induction l as [|x l IH]; [reflexivity|].
  rewrite !fmap_cons, !sum_cons, IH. lia.
Qed.

Lemma sum_fmap_zero {A : Type} (g : A → Z) (l : list A) :
  (∀ x, x ∈ l → g x = 0) → sum (g <$> l) = 0.
Proof.
  induction l as [|x l IH]; intros Hz; [reflexivity|].
  rewrite fmap_cons, sum_cons, Hz, IH; [reflexivity| |left].
  intros y Hy. apply Hz. right. exact Hy.
Qed.

(** Among distinct keys exactly one matches a given key. *)
Lemma sum_indicator (ks : list string) (x : option string) :
  NoDup ks →
  sum ((λ k, if decide (x = Some k) then 1 else 0) <$> ks)
  = if decide (x ∈ Some <$> ks) then 1 else 0.
Proof.
  induction ks as [|k ks IH]; intros Hnd.
  - rewrite decide_False by apply not_elem_of_nil. reflexivity.
  - apply NoDup_cons in Hnd as [Hk Hnd]. rewrite !fmap_cons, sum_cons, (IH Hnd).
    destruct (decide (x = Some k)) as [->|Hne].
    + rewrite (decide_True (P := Some k ∈ Some k :: _)) by left.
      rewrite decide_False; [reflexivity|].
      intros Hin. apply list_elem_of_fmap in Hin as (k' & [= <-] & Hin). exact (Hk Hin).
    + destruct (decide (x ∈ Some <$> ks)) as [Hin|Hin].
      * rewrite (decide_True (P := x ∈ Some k :: _)) by (right; exact Hin). reflexivity.
      * rewrite (decide_False (P := x ∈ Some k :: _)); [reflexivity|].
        intros Hc. apply elem_of_cons in Hc as [Hc|Hc]; [exact (Hne Hc)|exact (Hin Hc)].
Qed.

(** The tokens charged to distinct keys, key by key, add up to the tokens
    charged to any of them. *)
Lemma count_by_keys {A : Type} (f : A → option string) (ks : list string) (xs : list A) :
  NoDup ks →
  sum ((λ k, len (filter (λ x, f x = Some k) xs)) <$> ks)
  = len (filter (λ x, f x ∈ Some <$> ks) xs).
Proof.
  intros Hnd. induction xs as [|x xs IH].
  - rewrite filter_nil. apply sum_fmap_zero. intros k _. reflexivity.
  - rewrite (filter_cons (λ x, f x ∈ Some <$> ks)).
    transitivity
      (sum ((λ k, (if decide (f x = Some k) then 1 else 0)
                  + len (filter (λ x, f x = Some k) xs)) <$> ks)).
    + f_equal. apply list_fmap_ext. intros _ k _. rewrite filter_cons.
      destruct (decide (f x = Some k)); rewrite ?len_cons; lia.
    + rewrite sum_fmap_plus, IH, (sum_indicator ks (f x) Hnd).
      destruct (decide (f x ∈ Some <$> ks)); rewrite ?len_cons; lia.
Qed.

Lemma category_keys :
  category_order.*1
  = ["web_markup"; "english"; "foreign"; "proper_nouns"; "abbreviations";
     "numbers"; "codes"; "single_chars"].
Proof. reflexivity. Qed.

Lemma category_keys_NoDup : NoDup category_order.*1.
Proof. rewrite category_keys. apply (bool_decide_unpack _). vm_compute. exact I. Qed.

Lemma first_category_in_keys (w k : string) :
  first_category w = Some k → k ∈ category_order.*1.
Proof.
  intros Hf. destruct (first_category_first _ _ Hf) as (n & set & Hn & _).
  apply list_elem_of_fmap. exists (k, set). split; [reflexivity|].
  apply list_elem_of_lookup. exists n. exact Hn.
Qed.

(** A token is dropped exactly when it is charged to a blacklist category. *)
Lemma dropped_iff_charged (lower : string → string) (word : string) :
  should_keep_word lower word = false ↔
  counter_key (lower word) ∈ Some <$> category_order.*1.
Proof.
  destruct (triage_cases lower word)
    as [(_ & Hk & Hck)|[(_ & Hk & k & Hf & Hck)|(_ & Hk & _ & Hck)]];
    rewrite Hk, Hck; clear Hk Hck.
  - split; [intros E; clear -E; discriminate E|].
    rewrite category_keys. intros Hin. exfalso. clear -Hin.
    apply (bool_decide_pack _) in Hin. vm_compute in Hin. exact Hin.
  - split; [intros _|reflexivity].
    apply list_elem_of_fmap. exists k. split; [reflexivity|].
    exact (first_category_in_keys _ _ Hf).
  - split; [intros E; clear -E; discriminate E|].
    intros Hin. apply list_elem_of_fmap in Hin as (k & E & _). clear -E. discriminate E.
Qed.

(** ** Extra properties of [clean_corpus] *)

(** X2: the report of [clean_corpus] is consistent: [original_words] and
    [cleaned_words] are the lengths of the input and of the kept list,
    [removed_words] is their difference, it is the number of input tokens
    that [should_keep_word] rejects, and it is what the eight blacklist
    counters add up to. *)
Theorem X2_removed_words_is_blacklist_total
    (lower : string → string) (words : list string) :
  ∃ kept stats,
    clean_corpus lower words = Ok (kept, stats) ∧
    original_words stats = len words ∧
    cleaned_words stats = len kept ∧
    original_words stats = cleaned_words stats + removed_words stats ∧
    removed_words stats
    = len (filter (λ w, should_keep_word lower w = false) words) ∧
    removed_words stats
    = sum ((λ k, get0 (removed_by_category stats) k) <$> category_order.*1).
Proof.
  destruct (clean_corpus_report lower words)
    as (stats & Hrun & Ho & Hc & Hr & _ & _ & Hg).
  eexists _, stats. split; [exact Hrun|].
  assert (removed_words stats
          = len (filter (λ w, should_keep_word lower w = false) words)) as Hdropped.
  { rewrite Hr, Ho, Hc. clear.
    induction words as [|w words IH]; [reflexivity|].
    rewrite !filter_cons, len_cons.
    destruct (should_keep_word lower w).
    - rewrite decide_True by reflexivity. rewrite decide_False by discriminate.
      rewrite len_cons. lia.
    - rewrite decide_False by discriminate. rewrite decide_True by reflexivity.
      rewrite len_cons. lia. }
  repeat split; [exact Ho|exact Hc|lia|exact Hdropped|].
  rewrite Hdropped.
  rewrite (list_fmap_ext _ (λ k, len (filter (λ w, counter_key (lower w) = Some k) words))
             category_order.*1) by (intros _ k _; apply Hg).
  rewrite (count_by_keys _ _ _ category_keys_NoDup).
  f_equal. apply list_filter_iff. intros w. apply dropped_iff_charged.
Qed.

(** ** Ratios as exact rationals *)

Lemma inject_Z_lt (a b : Z) : a < b → (inject_Z a < inject_Z b)%Q.
Proof. intros Hab. rewrite <- Zlt_Qlt. exact Hab. Qed.

Lemma inject_Z_le (a b : Z) : a ≤ b → (inject_Z a <= inject_Z b)%Q.
Proof. intros Hab. rewrite <- Zle_Qle. exact Hab. Qed.

Lemma ratio_bounds (a b : Z) :
  0 ≤ a ≤ b → 0 < b → (0 <= inject_Z a / inject_Z b <= 1)%Q.
Proof.
  intros [Ha Hab] Hb.
  assert (0 < inject_Z b)%Q as Hb' by exact (inject_Z_lt 0 b Hb).
  split.
  - apply Qle_shift_div_l; [exact Hb'|]. rewrite Qmult_0_l.
    exact (inject_Z_le 0 a Ha).
  - apply Qle_shift_div_r; [exact Hb'|]. rewrite Qmult_1_l.
    exact (inject_Z_le a b Hab).
Qed.

Lemma scaled_ratio_bounds (a b c : Z) :
  0 ≤ a ≤ b → 0 < b → 0 ≤ c →
  (0 <= Qred (Qred (inject_Z a / inject_Z b) * inject_Z c) <= inject_Z c)%Q.
Proof.
  intros Hab Hb Hc. rewrite !Qred_correct.
  destruct (ratio_bounds a b Hab Hb) as [H0 H1].
  assert (0 <= inject_Z c)%Q as Hc' by exact (inject_Z_le 0 c Hc).
  split.
  - apply Qmult_le_0_compat; assumption.
  - rewrite <- (Qmult_1_l (inject_Z c)) at 2.
    apply Qmult_le_compat_r; assumption.
Qed.

Lemma len_filter_le {A : Type} (P : A → Prop) `{∀ x, Decision (P x)} (l : list A) :
  0 ≤ len (filter P l) ≤ len l.
Proof. unfold len. pose proof (length_filter P l). lia. Qed.

Lemma len_filter_none {A : Type} (P : A → Prop) `{∀ x, Decision (P x)} (l : list A) :
  (∀ x, x ∈ l → ¬ P x) → len (filter P l) = 0.
Proof.
  induction l as [|x l IH]; intros Hn; [reflexivity|].
  rewrite filter_cons_False by (apply Hn; left).
  apply IH. intros y Hy. apply Hn. right. exact Hy.
Qed.

(** X3: [percentage_removed] never divides by zero: it is the int 0 on an
    empty input and a float otherwise, and it lies between 0 and 100. *)
Theorem X3_percentage_removed_range
    (lower : string → string) (words : list string) :
  ∃ kept stats,
    clean_corpus lower words = Ok (kept, stats) ∧
    (0 <= Q_of_num (percentage_removed stats) <= 100)%Q ∧
    if decide (words = [])
    then percentage_removed stats = NInt 0
    else ∃ q, percentage_removed stats = NFloat q.
Proof.
  destruct (clean_corpus_report lower words)
    as (stats & Hrun & Ho & Hc & Hr & Hp & _ & _).
  eexists _, stats. split; [exact Hrun|].
  pose proof (len_filter_le (λ w, should_keep_word lower w = true) words) as Hle.
  rewrite Hp. destruct words as [|w words].
  - rewrite decide_True by reflexivity. cbn [Q_of_num len length Z.of_nat Z.ltb Z.compare].
    split; [split; discriminate|reflexivity].
  - rewrite decide_False by discriminate.
    assert (0 < len (w :: words)) as Hpos by (rewrite len_cons; unfold len; lia).
    replace (0 <? len (w :: words)) with true by (symmetry; apply Z.ltb_lt; exact Hpos).
    split; [|eexists; reflexivity].
    cbn [Q_of_num]. apply (scaled_ratio_bounds _ _ 100); lia.
Qed.

(** X4: cleaning is idempotent: cleaning the kept list again keeps all of
    it, removes nothing, and charges no blacklist category. *)
Theorem X4_clean_corpus_idempotent
    (lower : string → string) (words : list string) :
  ∃ kept stats stats',
    clean_corpus lower words = Ok (kept, stats) ∧
    clean_corpus lower kept = Ok (kept, stats') ∧
    removed_words stats' = 0 ∧
    Forall (λ k, get0 (removed_by_category stats') k = 0) category_order.*1.
Proof.
  destruct (clean_corpus_report lower words) as (stats & Hrun & _).
  destruct (clean_corpus_report lower (filter (λ w, should_keep_word lower w = true) words))
    as (stats' & Hrun' & Ho' & Hc' & Hr' & _ & _ & Hg').
  assert (filter (λ w, should_keep_word lower w = true)
            (filter (λ w, should_keep_word lower w = true) words)
          = filter (λ w, should_keep_word lower w = true) words) as Hsame.
  { rewrite list_filter_filter. apply list_filter_iff. intros w. tauto. }
  rewrite Hsame in Hrun', Hc'.
  eexists _, stats, stats'. split; [exact Hrun|]. split; [exact Hrun'|].
  split; [lia|].
  apply Forall_forall. intros k Hk. rewrite Hg'.
  apply len_filter_none. intros w Hw Hck.
  apply list_elem_of_filter in Hw as [Hkeep _].
  assert (should_keep_word lower w = false) as Hdrop.
  { apply dropped_iff_charged. rewrite Hck. apply list_elem_of_fmap_2. exact Hk. }
  rewrite Hdrop in Hkeep. clear -Hkeep. discriminate Hkeep.
Qed.

(** X5: cleaning distributes over concatenation: the kept lists concatenate,
    and every counter and [removed_words] add up. *)
Theorem X5_clean_corpus_concat
    (lower : string → string) (xs ys : list string) :
  ∃ kept_x kept_y stats_x stats_y stats,
    clean_corpus lower xs = Ok (kept_x, stats_x) ∧
    clean_corpus lower ys = Ok (kept_y, stats_y) ∧
    clean_corpus lower (xs ++ ys) = Ok (kept_x ++ kept_y, stats) ∧
    removed_words stats = removed_words stats_x + removed_words stats_y ∧
    ∀ k, get0 (removed_by_category stats) k
         = get0 (removed_by_category stats_x) k
           + get0 (removed_by_category stats_y) k.
Proof.
  destruct (clean_corpus_report lower xs) as (sx & Hx & Hox & Hcx & Hrx & _ & _ & Hgx).
  destruct (clean_corpus_report lower ys) as (sy & Hy & Hoy & Hcy & Hry & _ & _ & Hgy).
  destruct (clean_corpus_report lower (xs ++ ys)) as (s & Hs & Ho & Hc & Hr & _ & _ & Hg).
  rewrite filter_app in Hs, Hc.
  eexists _, _, sx, sy, s. split; [exact Hx|]. split; [exact Hy|]. split; [exact Hs|].
  split.
  - rewrite Hr, Ho, Hc, Hrx, Hox, Hcx, Hry, Hoy, Hcy, !len_app. lia.
  - intros k. rewrite Hg, Hgx, Hgy, filter_app, len_app. reflexivity.
Qed.

(** X6: whatever the input, [removed_by_category] comes back with exactly
    its nine keys, each with a count that is not negative. *)
Theorem X6_removed_by_category_keys
    (lower : string → string) (words : list string) :
  ∃ kept stats,
    clean_corpus lower words = Ok (kept, stats) ∧
    dom (removed_by_category stats)
    = list_to_set ["web_markup"; "english"; "foreign"; "proper_nouns";
                   "abbreviations"; "numbers"; "codes"; "single_chars";
                   "protected_by_whitelist"] ∧
    map_Forall (λ _ v, 0 ≤ v) (removed_by_category stats).
Proof.
  destruct (clean_corpus_report lower words) as (stats & Hrun & _ & _ & _ & _ & Hdom & Hg).
  eexists _, stats. split; [exact Hrun|]. split.
  - rewrite Hdom. apply (bool_decide_unpack _). vm_compute. exact I.
  - intros k v Hv.
    assert (v = get0 (removed_by_category stats) k) as ->
      by (unfold get0; rewrite Hv; reflexivity).
    rewrite Hg. apply len_filter_le.
Qed.

(** * Further properties of the tables of [main] *)

Section CounterTables.

Context {K : Type} `{Countable K}.

Lemma sum_values_Counter (xs : list K) : sum (values (Counter xs)) = len xs.
Proof.
  rewrite values_total.
  pose proof (total_Counter (λ _ : K, True) xs) as E. cbn beta in E. rewrite E.
  clear E. f_equal. induction xs as [|x xs IH]; [reflexivity|].
  rewrite filter_cons_True by exact I. f_equal. exact IH.
Qed.

Lemma dom_Counter_from (xs : list K) (c : gmap K Z) :
  dom (foldl (λ c x, <[x := get0 c x + 1]> c) c xs) = dom c ∪ list_to_set xs.
Proof.
  revert c. induction xs as [|x xs IH]; intros c; cbn [foldl list_to_set].
  - symmetry. apply (right_id_L ∅ (∪)).
  - rewrite IH, dom_insert_L. apply set_eq. intros y.
    rewrite !elem_of_union. tauto.
Qed.

Lemma dom_Counter (xs : list K) : dom (Counter xs) = list_to_set xs.
Proof. unfold Counter. rewrite dom_Counter_from, dom_empty_L. apply (left_id_L ∅ (∪)). Qed.

Lemma Counter_is_Some (xs : list K) (x : K) :
  is_Some (Counter xs !! x) ↔ x ∈ xs.
Proof. rewrite <- elem_of_dom, dom_Counter. apply elem_of_list_to_set. Qed.

Lemma len_filter_elem (xs : list K) (x : K) :
  x ∈ xs → 1 ≤ len (filter (λ y, y = x) xs).
Proof.
  induction 1 as [x xs|x y xs _ IH].
  - rewrite filter_cons_True by reflexivity. rewrite len_cons.
    pose proof (len_filter_le (λ y, y = x) xs). lia.
  - rewrite filter_cons. destruct (decide (y = x)); rewrite ?len_cons; lia.
Qed.

(** A stored count is the number of occurrences, and is at least one. *)
Lemma Counter_lookup (xs : list K) (x : K) (v : Z) :
  Counter xs !! x = Some v →
  v = len (filter (λ y, y = x) xs) ∧ 1 ≤ v ∧ x ∈ xs.
Proof.
  intros Hv.
  assert (x ∈ xs) as Hx by (apply Counter_is_Some; eexists; exact Hv).
  assert (v = get0 (Counter xs) x) as -> by (unfold get0; rewrite Hv; reflexivity).
  rewrite get0_Counter. repeat split; [apply len_filter_elem, Hx|exact Hx].
Qed.

End CounterTables.

Lemma word_trigrams_prefix (words : list string) (n : nat) :
  (n ≤ length words - 2)%nat →
  for_each
    (λ acc i,
       a ← getitem words i;
       b ← getitem words (i + 1);
       c ← getitem words (i + 2);
       Ok (acc ++ [(a, b, c)]))
    (range (Z.of_nat n)) []
  = Ok (take n (zip (zip words (tail words)) (tail (tail words)))).
Proof.
  induction n as [|n IH]; intros Hn; [reflexivity|].
  rewrite range_S, for_each_app, IH by lia. cbn [mbind result_bind for_each].
  destruct (lookup_lt_is_Some_2 words n) as [a Ha]; [lia|].
  destruct (lookup_lt_is_Some_2 words (S n)) as [b Hb]; [lia|].
  destruct (lookup_lt_is_Some_2 words (S (S n))) as [c Hc]; [lia|].
  rewrite (getitem_lookup _ _ _ Ha). cbn [mbind result_bind].
  replace (Z.of_nat n + 1) with (Z.of_nat (S n)) by lia.
  rewrite (getitem_lookup _ _ _ Hb). cbn [mbind result_bind].
  replace (Z.of_nat n + 2) with (Z.of_nat (S (S n))) by lia.
  rewrite (getitem_lookup _ _ _ Hc). cbn [mbind result_bind].
  f_equal. symmetry. apply take_S_r.
  rewrite !lookup_zip_with, !lookup_tail, Ha, Hb, Hc. reflexivity.
Qed.

(** The trigram loop stays in range too: the trigrams are the adjacent
    triples. *)
Lemma word_trigrams_zip (words : list string) :
  word_trigrams words = Ok (zip (zip words (tail words)) (tail (tail words))).
Proof.
  unfold word_trigrams, len. destruct words as [|w1 [|w2 words]]; [reflexivity..|].
  replace (Z.of_nat (length (w1 :: w2 :: words)) - 2) with (Z.of_nat (length words))
    by (cbn [length]; lia).
  rewrite word_trigrams_prefix by (cbn [length]; lia).
  f_equal. apply take_ge.
  rewrite !length_zip_with. cbn [tail length]. lia.
Qed.

Lemma len_adjacent_pairs (words : list string) :
  len (zip words (tail words)) = Z.max 0 (len words - 1).
Proof.
  unfold len. rewrite length_zip_with. destruct words as [|w words]; cbn [tail length]; lia.
Qed.

Lemma len_adjacent_triples (words : list string) :
  len (zip (zip words (tail words)) (tail (tail words))) = Z.max 0 (len words - 2).
Proof.
  unfold len. rewrite !length_zip_with.
  destruct words as [|w1 [|w2 words]]; cbn [tail length]; lia.
Qed.

(** X7: the unigram table counts occurrences: a word is a key exactly when it
    occurs, its count is then the number of its occurrences, the counts add
    up to the number of tokens, and the table has as many entries as there
    are distinct tokens. *)
Theorem X7_unigram_table (words : list string) (w : string) :
  word_freq words !! w
  = (if decide (w ∈ words) then Some (len (filter (λ x, x = w) words)) else None) ∧
  sum (values (word_freq words)) = len words ∧
  size (word_freq words) = size (list_to_set words : gset string).
Proof.
  unfold word_freq. split; [|split].
  - destruct (Counter words !! w) as [v|] eqn:Hv.
    + destruct (Counter_lookup _ _ _ Hv) as (-> & _ & Hin).
      rewrite decide_True by exact Hin. reflexivity.
    + rewrite decide_False; [reflexivity|].
      intros Hin. apply Counter_is_Some in Hin as [v' Hv']. congruence.
  - apply sum_values_Counter.
  - rewrite <- size_dom, dom_Counter. reflexivity.
Qed.

(** X8: the bigram table is always built; the count of a pair is the number
    of places where the two words are adjacent in that order, and the counts
    add up to one less than the number of tokens (to zero on no tokens). *)
Theorem X8_bigram_table (words : list string) :
  ∃ table,
    bigram_freq words = Ok table ∧
    (∀ a b, get0 table (a, b)
            = len (filter (λ p, p = (a, b)) (zip words (tail words)))) ∧
    total_bigrams words = Ok (Z.max 0 (len words - 1)).
Proof.
  unfold total_bigrams, bigram_freq. rewrite word_bigrams_zip.
  eexists. split; [reflexivity|]. split.
  - intros a b. apply get0_Counter.
  - cbn [fmap result_fmap mbind result_bind].
    rewrite sum_values_Counter, len_adjacent_pairs. reflexivity.
Qed.

(** X9: the trigram table is always built; the count of a triple is the
    number of places where the three words follow one another, and the
    counts add up to two less than the number of tokens (to zero below
    two tokens). *)
Theorem X9_trigram_table (words : list string) :
  ∃ table,
    trigram_freq words = Ok table ∧
    (∀ a b c, get0 table (a, b, c)
              = len (filter (λ t, t = (a, b, c))
                       (zip (zip words (tail words)) (tail (tail words))))) ∧
    total_trigrams words = Ok (Z.max 0 (len words - 2)).
Proof.
  unfold total_trigrams, trigram_freq. rewrite word_trigrams_zip.
  eexists. split; [reflexivity|]. split.
  - intros a b c. apply get0_Counter.
  - cbn [fmap result_fmap mbind result_bind].
    rewrite sum_values_Counter, len_adjacent_triples. reflexivity.
Qed.

Lemma ratio_pos (a b : Z) : 0 < a → 0 < b → (0 < inject_Z a / inject_Z b)%Q.
Proof.
  intros Ha Hb. apply Qlt_shift_div_l; [exact (inject_Z_lt 0 b Hb)|].
  rewrite Qmult_0_l. exact (inject_Z_lt 0 a Ha).
Qed.

(** A share [a / b] with [1 <= a <= b] is a probability, and not zero. *)
Lemma share_range (a b : Z) :
  1 ≤ a ≤ b → (0 < Qred (inject_Z a / inject_Z b) <= 1)%Q.
Proof.
  intros Hab. rewrite Qred_correct. split.
  - apply ratio_pos; lia.
  - apply ratio_bounds; lia.
Qed.

Lemma len_filter_mono {A : Type} (P Q : A → Prop)
    `{∀ x, Decision (P x)} `{∀ x, Decision (Q x)} (l : list A) :
  (∀ x, P x → Q x) → len (filter P l) ≤ len (filter Q l).
Proof.
  intros HPQ. induction l as [|x l IH]; [reflexivity|].
  rewrite !filter_cons. destruct (decide (P x)) as [HP|HP].
  - rewrite decide_True by (apply HPQ, HP). rewrite !len_cons. lia.
  - destruct (decide (Q x)); rewrite ?len_cons; lia.
Qed.

(** A pair is seen at most as often as its first word. *)
Lemma pair_count_le_word_count (words : list string) (w1 w2 : string) :
  len (filter (λ p, p = (w1, w2)) (zip words (tail words)))
  ≤ len (filter (λ w, w = w1) words).
Proof.
  pose proof (pairs_starting_with w1 words) as Hstart.
  pose proof (len_filter_mono (λ p : string * string, p = (w1, w2)) (λ p, p.1 = w1)
                (zip words (tail words))) as Hmono.
  assert (∀ p : string * string, p = (w1, w2) → p.1 = w1) as Himp
    by (intros p ->; reflexivity).
  specialize (Hmono Himp). destruct (decide (last words = Some w1)); lia.
Qed.

(** ** The bigram model *)

Lemma bigram_model_step_ok (wf : gmap string Z) (total : Z)
    (model : gmap string (gmap string bigram_entry)) (w1 w2 : string) (c : Z) :
  get0 wf w1 ≠ 0 → total ≠ 0 →
  bigram_model_step wf total model ((w1, w2), c)
  = Ok (<[w1 := <[w2 := {| pair_count := c;
                           conditional_probability :=
                             NFloat (Qred (inject_Z c / inject_Z (get0 wf w1)));
                           joint_probability :=
                             NFloat (Qred (inject_Z c / inject_Z total)) |}]>
                 (default ∅ (model !! w1))]> model).
Proof.
  intros Hw Ht. unfold bigram_model_step.
  rewrite !truediv_int by assumption. reflexivity.
Qed.

Lemma lookup_nested_insert (model : gmap string (gmap string bigram_entry))
    (w1 w2 a b : string) (e : bigram_entry) :
  (<[w1 := <[w2 := e]> (default ∅ (model !! w1))]> model !! a) ≫= (λ inner, inner !! b)
  = if decide ((w1, w2) = (a, b)) then Some e
    else (model !! a) ≫= (λ inner, inner !! b).
Proof.
  destruct (decide (w1 = a)) as [->|Hne].
  - rewrite lookup_insert_eq. cbn [mbind option_bind].
    destruct (decide (w2 = b)) as [->|Hne].
    + rewrite lookup_insert_eq, decide_True by reflexivity. reflexivity.
    + rewrite lookup_insert_ne by exact Hne.
      rewrite decide_False by congruence.
      destruct (model !! a); [reflexivity|]. cbn. apply lookup_empty.
  - rewrite lookup_insert_ne by exact Hne.
    rewrite decide_False by congruence. reflexivity.
Qed.

Lemma bigram_model_loop (wf : gmap string Z) (total : Z)
    (items : list (string * string * Z))
    (model : gmap string (gmap string bigram_entry)) :
  total ≠ 0 →
  Forall (λ item, get0 wf item.1.1 ≠ 0) items →
  NoDup items.*1 →
  ∃ model',
    for_each (bigram_model_step wf total) items model = Ok model' ∧
    (∀ a b, (a, b) ∉ items.*1 →
            (model' !! a) ≫= (λ inner, inner !! b)
            = (model !! a) ≫= (λ inner, inner !! b)) ∧
    (∀ a b c, ((a, b), c) ∈ items →
              (model' !! a) ≫= (λ inner, inner !! b)
              = Some {| pair_count := c;
                        conditional_probability :=
                          NFloat (Qred (inject_Z c / inject_Z (get0 wf a)));
                        joint_probability :=
                          NFloat (Qred (inject_Z c / inject_Z total)) |}).
Proof.
  intros Ht. revert model.
  induction items as [|[[w1 w2] c0] items IH]; intros model Hok Hnd.
  - exists model. split; [reflexivity|]. split; [reflexivity|].
    intros a b c Hin. apply elem_of_nil in Hin. destruct Hin.
  - apply Forall_cons in Hok as [Hw Hok]. cbn [fst] in Hw.
    rewrite fmap_cons in Hnd. apply NoDup_cons in Hnd as [Hfresh Hnd].
    cbn [for_each]. rewrite bigram_model_step_ok by assumption.
    cbn [mbind result_bind].
    match goal with
    | |- context [for_each _ items ?m] =>
        destruct (IH m Hok Hnd) as (model' & Hrun & Hout & Hin)
    end.
    exists model'. split; [exact Hrun|]. split.
    + intros a b Hab. rewrite fmap_cons in Hab.
      apply not_elem_of_cons in Hab as [Hne Hab]. cbn [fst] in Hne.
      rewrite (Hout a b Hab), lookup_nested_insert.
      rewrite decide_False by congruence. reflexivity.
    + intros a b c Habc. apply elem_of_cons in Habc as [[= -> -> ->]|Habc].
      * cbn [fst] in Hfresh. rewrite (Hout _ _ Hfresh), lookup_nested_insert.
        rewrite decide_True by reflexivity. reflexivity.
      * exact (Hin a b c Habc).
Qed.

(** X10: the bigram model is always built, without a division by zero: every
    pair of the bigram table gets an entry under its first word, holding the
    pair's count, a conditional probability [count / count(w1)] and a joint
    probability [count / total_bigrams], both above 0 and at most 1; pairs
    that never occur get no entry. *)
Theorem X10_bigram_model (words : list string) :
  ∃ table model,
    bigram_freq words = Ok table ∧
    bigram_model words = Ok model ∧
    ∀ w1 w2,
      match table !! (w1, w2) with
      | Some c =>
          ∃ e cond joint,
            (model !! w1) ≫= (λ inner, inner !! w2) = Some e ∧
            pair_count e = c ∧
            conditional_probability e = NFloat cond ∧
            joint_probability e = NFloat joint ∧
            (cond == inject_Z c / inject_Z (get0 (word_freq words) w1))%Q ∧
            (joint == inject_Z c / inject_Z (len words - 1))%Q ∧
            (0 < cond <= 1)%Q ∧ (0 < joint <= 1)%Q
      | None => (model !! w1) ≫= (λ inner, inner !! w2) = None
      end.
Proof.
  unfold bigram_model, bigram_freq. rewrite word_bigrams_zip.
  cbn [fmap result_fmap mbind result_bind].
  set (pairs := zip words (tail words)).
  rewrite sum_values_Counter.
  assert (∀ w1 w2 c, Counter pairs !! (w1, w2) = Some c →
            1 ≤ c ∧ c ≤ get0 (word_freq words) w1 ∧ c ≤ len pairs
            ∧ len pairs = len words - 1) as Hcount.
  { intros w1 w2 c Hc. apply Counter_lookup in Hc as (-> & Hpos & _).
    pose proof (pair_count_le_word_count words w1 w2) as Hle.
    pose proof (len_filter_le (λ p, p = (w1, w2)) pairs) as Hlen.
    pose proof (len_adjacent_pairs words) as Htot.
    fold pairs in Hle, Htot. unfold word_freq. rewrite get0_Counter.
    repeat split; lia. }
  destruct (decide (len pairs = 0)) as [Hempty|Hne].
  - assert (pairs = []) as -> by (apply length_zero_iff_nil; unfold len in Hempty; lia).
    exists ∅, ∅. split; [reflexivity|]. split; [reflexivity|].
    intros w1 w2. rewrite lookup_empty. reflexivity.
  - edestruct (bigram_model_loop (word_freq words) (len pairs)
                 (map_to_list (Counter pairs)) ∅ Hne) as (model & Hrun & Hout & Hin).
    + apply Forall_forall. intros [[w1 w2] c] Hitem.
      apply elem_of_map_to_list in Hitem.
      destruct (Hcount _ _ _ Hitem) as (? & ? & _). cbn [fst]. lia.
    + apply NoDup_fst_map_to_list.
    + exists (Counter pairs), model. split; [reflexivity|]. split; [exact Hrun|].
      intros w1 w2. destruct (Counter pairs !! (w1, w2)) as [c|] eqn:Hc.
      * destruct (Hcount _ _ _ Hc) as (Hpos & Hle & Hle' & Htot).
        eexists _, _, _. split; [apply Hin, elem_of_map_to_list, Hc|].
        cbn [pair_count conditional_probability joint_probability].
        rewrite <- Htot.
        repeat split; try reflexivity; try apply Qred_correct;
          apply share_range; lia.
      * rewrite Hout; [reflexivity|].
        intros Hmem. apply list_elem_of_fmap in Hmem as ([k c] & E & Hkc).
        apply elem_of_map_to_list in Hkc. cbn [fst] in E. subst k. congruence.
Qed.

(** X11: on the tables that [main] builds from a word list, add-one smoothing
    never fails: for a first word that occurs in the list it is a float above
    0 and at most 1, whether or not the pair was seen; for a first word that
    does not occur it is the int 0. *)
Theorem X11_smoothing_on_built_tables (words : list string) (w1 w2 : string) :
  ∃ table,
    bigram_freq words = Ok table ∧
    if decide (w1 ∈ words)
    then ∃ q, add_one_smoothed_prob w1 w2 table (word_freq words) = Ok (NFloat q)
              ∧ (0 < q <= 1)%Q
    else add_one_smoothed_prob w1 w2 table (word_freq words) = Ok (NInt 0).
Proof.
  unfold bigram_freq. rewrite word_bigrams_zip. cbn [fmap result_fmap].
  eexists. split; [reflexivity|].
  unfold add_one_smoothed_prob, word_freq. rewrite !get0_Counter.
  destruct (decide (w1 ∈ words)) as [Hin|Hout].
  - pose proof (len_filter_elem words w1 Hin) as Hocc.
    pose proof (pair_count_le_word_count words w1 w2) as Hle.
    pose proof (len_filter_le (λ p, p = (w1, w2)) (zip words (tail words))) as Hpos.
    replace (0 <? len (filter (λ y, y = w1) words)) with true
      by (symmetry; apply Z.ltb_lt; lia).
    rewrite truediv_int by lia.
    eexists. split; [reflexivity|].
    assert (size (Counter words) ≠ 0%nat) as Hsize.
    { intros Hz. apply map_size_empty_iff in Hz.
      apply Counter_is_Some in Hin as [v Hv]. rewrite Hz, lookup_empty in Hv.
      discriminate Hv. }
    apply share_range. lia.
  - rewrite len_filter_none; [reflexivity|].
    intros y Hy ->. exact (Hout Hy).
Qed.

(** X17: a frequency-of-frequencies table that is a [Counter] of observed
    frequencies has no zero count; when its quotients are within the range
    of a float, [good_turing_smoothing] returns on it, with one adjusted
    value per observed frequency. *)
Theorem X17_good_turing_on_counted_frequencies (frequencies : list Z) :
  quotients_fit (Counter frequencies) →
  guarded (Counter frequencies) ∧
  ∃ adjusted,
    good_turing_smoothing (Counter frequencies) = Ok adjusted ∧
    dom adjusted = list_to_set frequencies.
Proof.
  intros _.
  assert (guarded (Counter frequencies)) as Hg.
  { intros f c Hf _. apply Counter_lookup in Hf as (_ & Hpos & _). lia. }
  split; [exact Hg|].
  destruct (good_turing_smoothing_guarded _ Hg) as (adjusted & Hrun & Hlook).
  exists adjusted. split; [exact Hrun|].
  rewrite <- dom_Counter. apply set_eq. intros f.
  rewrite !elem_of_dom, Hlook. apply fmap_is_Some.
Qed.

Lemma X17_good_turing_on_counted_frequencies_witness :
  guarded (Counter [1; 1; 2; 1; 3]) ∧
  ∃ adjusted,
    good_turing_smoothing (Counter [1; 1; 2; 1; 3]) = Ok adjusted ∧
    dom adjusted = list_to_set [1; 1; 2; 1; 3].
Proof.
  apply (X17_good_turing_on_counted_frequencies [1; 1; 2; 1; 3]).
  apply (bool_decide_unpack _). vm_compute. exact I.
Defined.

(** * Further properties of the quality metrics *)

(** ** The stable descending sort *)

Section SortFacts.

Context {A : Type} (key : A → Z).

Lemma insert_by_Permutation (x : A) (l : list A) : insert_by key x l ≡ₚ x :: l.
Proof.
  induction l as [|y l IH]; [reflexivity|].
  cbn [insert_by]. destruct (key x <? key y); [|reflexivity].
  rewrite IH. apply Permutation_swap.
Qed.

Lemma sorted_desc_Permutation (l : list A) : sorted_desc key l ≡ₚ l.
Proof.
  induction l as [|x l IH]; [reflexivity|].
  unfold sorted_desc in *. cbn [foldr]. rewrite insert_by_Permutation, IH. reflexivity.
Qed.

Lemma insert_by_sorted (x : A) (l : list A) :
  StronglySorted (λ a b, key b ≤ key a) l →
  StronglySorted (λ a b, key b ≤ key a) (insert_by key x l).
Proof.
  induction l as [|y l IH]; intros Hs.
  - repeat constructor.
  - apply StronglySorted_inv in Hs as [Hs Hy]. cbn [insert_by].
    destruct (key x <? key y) eqn:E.
    + apply Z.ltb_lt in E. constructor; [exact (IH Hs)|].
      rewrite insert_by_Permutation. constructor; [lia|exact Hy].
    + apply Z.ltb_ge in E. constructor; [constructor; assumption|].
      constructor; [exact E|].
      eapply Forall_impl; [exact Hy|]. cbn beta. intros z Hz. lia.
Qed.

Lemma sorted_desc_sorted (l : list A) :
  StronglySorted (λ a b, key b ≤ key a) (sorted_desc key l).
Proof.
  induction l as [|x l IH]; [constructor|].
  unfold sorted_desc in *. cbn [foldr]. apply insert_by_sorted, IH.
Qed.

Lemma insert_by_stable (c : Z) (x : A) (l : list A) :
  filter (λ y, key y = c) (insert_by key x l) = filter (λ y, key y = c) (x :: l).
Proof.
  induction l as [|y l IH]; [reflexivity|].
  cbn [insert_by]. destruct (key x <? key y) eqn:E; [|reflexivity].
  apply Z.ltb_lt in E.
  rewrite (filter_cons _ y), IH, !(filter_cons _ x), (filter_cons _ y).
  destruct (decide (key y = c)), (decide (key x = c)); try reflexivity. lia.
Qed.

Lemma sorted_desc_stable (c : Z) (l : list A) :
  filter (λ y, key y = c) (sorted_desc key l) = filter (λ y, key y = c) l.
Proof.
  induction l as [|x l IH]; [reflexivity|].
  unfold sorted_desc in *. cbn [foldr].
  rewrite insert_by_stable, !(filter_cons _ x), IH. reflexivity.
Qed.

End SortFacts.

Lemma sorted_by_count_desc_generic (items : list (string * lex_entry)) :
  sorted_by_count_desc items = sorted_desc (λ wd, count wd.2) items.
Proof.
  unfold sorted_by_count_desc, sorted_desc. induction items as [|x items IH]; [reflexivity|].
  cbn [foldr]. rewrite IH. generalize (foldr (insert_by (λ wd, count wd.2)) [] items).
  intros l. induction l as [|y l IHl]; [reflexivity|].
  cbn [insert_desc insert_by]. rewrite IHl. reflexivity.
Qed.

Lemma sum_app (l k : list Z) : sum (l ++ k) = sum l + sum k.
Proof.
  induction l as [|x l IH]; [cbn [app]; unfold sum at 2; cbn; lia|].
  cbn [app]. rewrite !sum_cons, IH. lia.
Qed.

Lemma sum_nonneg (l : list Z) : Forall (λ x, 0 ≤ x) l → 0 ≤ sum l.
Proof.
  induction 1 as [|x l Hx _ IH]; [reflexivity|]. rewrite sum_cons. lia.
Qed.

(** A longer prefix of counts that are not negative adds up to no less. *)
Lemma sum_take_mono (l : list Z) (n m : nat) :
  Forall (λ x, 0 ≤ x) l → (n ≤ m)%nat → 0 ≤ sum (take n l) ≤ sum (take m l).
Proof.
  intros Hl Hnm. replace m with (n + (m - n))%nat by lia.
  rewrite <- take_take_drop, sum_app.
  pose proof (sum_nonneg (take n l) (Forall_take _ _ _ Hl)).
  pose proof (sum_nonneg (take (m - n) (drop n l)) (Forall_take _ _ _ (Forall_drop _ _ _ Hl))).
  lia.
Qed.

Lemma size_list_to_set_le (l : list string) :
  (size (list_to_set l : gset string) ≤ length l)%nat.
Proof.
  induction l as [|x l IH]; [reflexivity|].
  rewrite list_to_set_cons, size_union_alt, size_singleton. cbn [length].
  pose proof (subseteq_size (list_to_set l ∖ {[x]}) (list_to_set l : gset string)) as Hsub.
  assert (list_to_set l ∖ {[x]} ⊆ (list_to_set l : gset string)) as Hincl
    by (intros y Hy; apply elem_of_difference in Hy as [Hy _]; exact Hy).
  specialize (Hsub Hincl). lia.
Qed.

Lemma size_list_to_set_pos (x : string) (l : list string) :
  (1 ≤ size (list_to_set (x :: l) : gset string))%nat.
Proof.
  destruct (size (list_to_set (x :: l) : gset string)) eqn:E; [|lia].
  apply size_empty_iff in E.
  assert (x ∈ (list_to_set (x :: l) : gset string)) as Hx
    by (apply elem_of_list_to_set; left).
  rewrite E in Hx. destruct (not_elem_of_empty x Hx).
Qed.

Lemma percent_of_value (a b : Z) :
  percent_of a b
  = Ok (if 0 <? b
        then NFloat (Qred (Qred (inject_Z a / inject_Z b) * inject_Z 100))
        else NInt 0).
Proof.
  unfold percent_of. destruct (0 <? b) eqn:E; [|reflexivity].
  apply Z.ltb_lt in E. rewrite truediv_int by lia. reflexivity.
Qed.

(** What [compute_corpus_quality] returns for the type-token ratio, the
    coverages and the growth rate. *)
Lemma compute_corpus_quality_value
    (words : list string) (lexical_model : list (string * lex_entry)) :
  ∃ metrics,
    compute_corpus_quality words lexical_model = Ok metrics ∧
    type_token_ratio metrics
    = (if 0 <? len words
       then NFloat (Qred (inject_Z (Z.of_nat (size (list_to_set words : gset string)))
                          / inject_Z (len words)))
       else NInt 0) ∧
    (∀ top, top = (λ k : nat,
                     sum ((λ wd, count wd.2) <$> take k (sorted_by_count_desc lexical_model))) →
       top_10_coverage metrics
       = (if 0 <? len words
          then NFloat (Qred (Qred (inject_Z (top 10%nat) / inject_Z (len words)) * inject_Z 100))
          else NInt 0) ∧
       top_100_coverage metrics
       = (if 0 <? len words
          then NFloat (Qred (Qred (inject_Z (top 100%nat) / inject_Z (len words)) * inject_Z 100))
          else NInt 0) ∧
       top_1000_coverage metrics
       = (if 0 <? len words
          then NFloat (Qred (Qred (inject_Z (top 1000%nat) / inject_Z (len words)) * inject_Z 100))
          else NInt 0)) ∧
    vocab_growth_rate metrics
    = (if 1000 <=? len words
       then NFloat (Qred (Qred (inject_Z (Z.of_nat (size (list_to_set
                                    (take (Z.to_nat (Z.min 1000 (len words / 10))) words)
                                  : gset string)))
                                / inject_Z (Z.min 1000 (len words / 10)))
                          * inject_Z 1000))
       else mul (type_token_ratio metrics) (NInt 1000)).
Proof.
  unfold compute_corpus_quality. rewrite !percent_of_value.
  assert ((if 0 <? len words
           then truediv (NInt (Z.of_nat (size (list_to_set words : gset string))))
                        (NInt (len words))
           else Ok (NInt 0))
          = Ok (if 0 <? len words
                then NFloat (Qred (inject_Z (Z.of_nat (size (list_to_set words : gset string)))
                                   / inject_Z (len words)))
                else NInt 0)) as ->.
  { destruct (0 <? len words) eqn:E; [|reflexivity].
    apply Z.ltb_lt in E. rewrite truediv_int by lia. reflexivity. }
  cbn [mbind result_bind].
  assert (∃ avg, (if 0 <? len words
                  then truediv (NInt (sum (str_len <$> words))) (NInt (len words))
                  else Ok (NInt 0)) = Ok avg) as [avg ->].
  { destruct (0 <? len words) eqn:E; [|eauto].
    apply Z.ltb_lt in E. rewrite truediv_int by lia. eauto. }
  cbn [mbind result_bind].
  destruct (1000 <=? len words) eqn:E.
  - apply Z.leb_le in E.
    assert (100 ≤ len words / 10) by (apply Z.div_le_lower_bound; lia).
    rewrite truediv_int by lia. cbn [mbind result_bind].
    eexists. split; [reflexivity|]. cbn.
    split; [reflexivity|]. split; [|reflexivity].
    intros top ->. repeat split; reflexivity.
  - cbn [mbind result_bind].
    eexists. split; [reflexivity|]. cbn -[mul].
    split; [reflexivity|]. split; [|reflexivity].
    intros top ->. repeat split; reflexivity.
Qed.

Lemma scaled_ratio_mono (a a' b c : Z) :
  a ≤ a' → 0 < b → 0 ≤ c →
  (Qred (Qred (inject_Z a / inject_Z b) * inject_Z c)
   <= Qred (Qred (inject_Z a' / inject_Z b) * inject_Z c))%Q.
Proof.
  intros Ha Hb Hc. rewrite !Qred_correct.
  apply Qmult_le_compat_r; [|exact (inject_Z_le 0 c Hc)].
  unfold Qdiv. apply Qmult_le_compat_r; [exact (inject_Z_le a a' Ha)|].
  apply Qinv_le_0_compat. exact (inject_Z_le 0 b (Z.lt_le_incl _ _ Hb)).
Qed.

Lemma sorted_counts_nonneg (lexical_model : list (string * lex_entry)) :
  Forall (λ wd, 0 ≤ count wd.2) lexical_model →
  Forall (λ x, 0 ≤ x) ((λ wd, count wd.2) <$> sorted_by_count_desc lexical_model).
Proof.
  intros Hl. apply Forall_fmap.
  rewrite sorted_by_count_desc_generic, sorted_desc_Permutation. exact Hl.
Qed.

(** ** Extra properties of [compute_corpus_quality] *)

(** X14: when no count of the lexical model is negative and their total
    over the number of tokens is within the range of a float, the metrics
    are computed, and the coverage of the top 10 words is at least 0 and at
    most that of the top 100, which is at most that of the top 1000. *)
Theorem X14_coverage_monotone
    (words : list string) (lexical_model : list (string * lex_entry)) :
  Forall (λ wd, 0 ≤ count wd.2) lexical_model →
  fits_float (sum ((λ wd, count wd.2) <$> lexical_model)) (len words) = true →
  ∃ metrics,
    compute_corpus_quality words lexical_model = Ok metrics ∧
    (0 <= Q_of_num (top_10_coverage metrics))%Q ∧
    (Q_of_num (top_10_coverage metrics) <= Q_of_num (top_100_coverage metrics))%Q ∧
    (Q_of_num (top_100_coverage metrics) <= Q_of_num (top_1000_coverage metrics))%Q.
Proof.
  intros Hl _.
  destruct (compute_corpus_quality_value words lexical_model)
    as (metrics & Hrun & _ & Htop & _).
  destruct (Htop _ eq_refl) as (H10 & H100 & H1000). cbn beta in *.
  exists metrics. split; [exact Hrun|]. rewrite H10, H100, H1000.
  pose proof (sorted_counts_nonneg lexical_model Hl) as Hs.
  rewrite !fmap_take.
  pose proof (sum_take_mono _ 0 10 Hs ltac:(lia)) as [_ M0].
  pose proof (sum_take_mono _ 10 100 Hs ltac:(lia)) as [_ M1].
  pose proof (sum_take_mono _ 100 1000 Hs ltac:(lia)) as [_ M2].
  change (sum (take 0 _)) with 0 in M0.
  destruct (0 <? len words) eqn:E.
  - apply Z.ltb_lt in E. cbn [Q_of_num]. repeat split.
    + rewrite !Qred_correct. apply Qmult_le_0_compat; [|discriminate].
      unfold Qdiv. apply Qmult_le_0_compat; [exact (inject_Z_le 0 _ M0)|].
      apply Qinv_le_0_compat. apply (inject_Z_le 0). lia.
    + apply scaled_ratio_mono; lia.
    + apply scaled_ratio_mono; lia.
  - cbn [Q_of_num]. repeat split; discriminate.
Qed.

Lemma X14_coverage_monotone_witness :
  ∃ metrics,
    compute_corpus_quality ["to"; "je"; "to"]
      [("to", {| count := 2; probability := NInt 0; percentage := NInt 0 |});
       ("je", {| count := 1; probability := NInt 0; percentage := NInt 0 |})]
    = Ok metrics ∧
    (0 <= Q_of_num (top_10_coverage metrics))%Q ∧
    (Q_of_num (top_10_coverage metrics) <= Q_of_num (top_100_coverage metrics))%Q ∧
    (Q_of_num (top_100_coverage metrics) <= Q_of_num (top_1000_coverage metrics))%Q.
Proof.
  apply (X14_coverage_monotone ["to"; "je"; "to"]).
  - repeat constructor; cbn; lia.
  - vm_compute. reflexivity.
Defined.

(** X15: a slice beyond the end of the sorted model takes what there is: with
    at most ten entries in the lexical model, whose total count over the
    number of tokens is within the range of a float, the metrics are
    computed and the three coverages are the same value. *)
Theorem X15_coverage_small_vocabulary
    (words : list string) (lexical_model : list (string * lex_entry)) :
  (length lexical_model ≤ 10)%nat →
  fits_float (sum ((λ wd, count wd.2) <$> lexical_model)) (len words) = true →
  ∃ metrics,
    compute_corpus_quality words lexical_model = Ok metrics ∧
    top_100_coverage metrics = top_10_coverage metrics ∧
    top_1000_coverage metrics = top_10_coverage metrics.
Proof.
  intros Hlen _.
  destruct (compute_corpus_quality_value words lexical_model)
    as (metrics & Hrun & _ & Htop & _).
  destruct (Htop _ eq_refl) as (H10 & H100 & H1000). cbn beta in *.
  exists metrics. split; [exact Hrun|]. rewrite H10, H100, H1000.
  assert (length (sorted_by_count_desc lexical_model) = length lexical_model) as Hs
    by (rewrite sorted_by_count_desc_generic, sorted_desc_Permutation; reflexivity).
  rewrite !take_ge by lia. split; reflexivity.
Qed.

Lemma X15_coverage_small_vocabulary_witness :
  ∃ metrics,
    compute_corpus_quality ["to"; "je"; "to"]
      [("to", {| count := 2; probability := NInt 0; percentage := NInt 0 |});
       ("je", {| count := 1; probability := NInt 0; percentage := NInt 0 |})]
    = Ok metrics ∧
    top_100_coverage metrics = top_10_coverage metrics ∧
    top_1000_coverage metrics = top_10_coverage metrics.
Proof.
  apply (X15_coverage_small_vocabulary ["to"; "je"; "to"]).
  - cbn [length]. lia.
  - vm_compute. reflexivity.
Defined.

(** * The word prediction example *)

(** X16: [example_word_prediction] arranges the (word, count) pairs of the
    model whose word starts with the lowercased prefix by decreasing count,
    pairs of equal count in the order of the model, and returns the words
    of the first [top_n] pairs, or for a negative [top_n] of all but the
    last [-top_n] pairs. *)
Theorem X16_word_prediction
    (lower : string → string) (words : list (string * lex_entry))
    (prefix : string) (top_n : Z) :
  ∃ sorted_matches : list (string * Z),
    sorted_matches
    ≡ₚ (λ wd, (wd.1, count wd.2))
         <$> filter (λ wd, startswith wd.1 (lower prefix) = true) words ∧
    StronglySorted (λ x y, y.2 ≤ x.2) sorted_matches ∧
    (∀ c : Z,
       filter (λ e, e.2 = c) sorted_matches
       = filter (λ e, e.2 = c)
           ((λ wd, (wd.1, count wd.2))
              <$> filter (λ wd, startswith wd.1 (lower prefix) = true) words)) ∧
    example_word_prediction lower words prefix top_n
    = (take (Z.to_nat (if 0 <=? top_n then top_n else len sorted_matches + top_n))
            sorted_matches).*1.
Proof.
  unfold example_word_prediction.
  set (matches := (λ wd : string * lex_entry, (wd.1, count wd.2))
                    <$> filter (λ wd, startswith wd.1 (lower prefix) = true) words).
  exists (sorted_desc (λ x : string * Z, x.2) matches).
  split; [apply sorted_desc_Permutation|].
  split; [apply sorted_desc_sorted|].
  split; [intros c; apply (sorted_desc_stable (λ x : string * Z, x.2))|].
  unfold slice_to. destruct (0 <=? top_n); reflexivity.
Qed.

(** * The lexical model of [main] *)

Section CounterOrderFacts.

Context {K : Type} `{Countable K}.

Lemma elem_of_first_occurrences (xs : list K) (x : K) :
  x ∈ first_occurrences xs ↔ x ∈ xs.
Proof.
  induction xs as [|y xs IH]; [reflexivity|].
  cbn [first_occurrences]. rewrite !elem_of_cons, list_elem_of_filter, IH.
  destruct (decide (x = y)); tauto.
Qed.

Lemma NoDup_first_occurrences (xs : list K) : NoDup (first_occurrences xs).
Proof.
  induction xs as [|y xs IH]; [constructor|].
  cbn [first_occurrences]. apply NoDup_cons. split.
  - rewrite list_elem_of_filter. intros [Hne _]. exact (Hne eq_refl).
  - apply NoDup_filter, IH.
Qed.

Lemma length_first_occurrences (xs : list K) :
  length (first_occurrences xs) = size (list_to_set xs : gset K).
Proof.
  rewrite <- (size_list_to_set (C := gset K) _ (NoDup_first_occurrences xs)).
  f_equal. apply set_eq. intros x.
  rewrite !elem_of_list_to_set. apply elem_of_first_occurrences.
Qed.

(** The ordered items are the entries of the table. *)
Lemma counter_items_Permutation (xs : list K) :
  counter_items xs ≡ₚ map_to_list (Counter xs).
Proof.
  apply NoDup_Permutation.
  - unfold counter_items. apply NoDup_fmap_2; [|apply NoDup_first_occurrences].
    intros x y [= E]. exact E.
  - apply NoDup_map_to_list.
  - intros [x v]. unfold counter_items.
    rewrite list_elem_of_fmap, elem_of_map_to_list. split.
    + intros (x' & [= -> ->] & Hin).
      apply (proj1 (elem_of_first_occurrences _ _)) in Hin.
      apply (proj2 (Counter_is_Some _ _)) in Hin as [v Hv].
      unfold get0. rewrite Hv. reflexivity.
    + intros Hv. exists x. split.
      * unfold get0. rewrite Hv. reflexivity.
      * apply (proj2 (elem_of_first_occurrences _ _)).
        apply (proj1 (Counter_is_Some _ _)). eexists. exact Hv.
Qed.

Lemma sum_counter_items (xs : list K) : sum (counter_items xs).*2 = len xs.
Proof.
  rewrite <- sum_values_Counter. unfold values.
  apply sum_Permutation, fmap_Permutation, counter_items_Permutation.
Qed.

Lemma counter_items_count (xs : list K) (x : K) (v : Z) :
  (x, v) ∈ counter_items xs → v = len (filter (λ y, y = x) xs) ∧ 1 ≤ v ≤ len xs.
Proof.
  intros Hin. unfold counter_items in Hin.
  apply list_elem_of_fmap in Hin as (x' & [= -> ->] & Hin).
  apply (proj1 (elem_of_first_occurrences _ _)) in Hin.
  rewrite get0_Counter. split; [reflexivity|].
  pose proof (len_filter_elem xs x' Hin).
  pose proof (len_filter_le (λ y, y = x') xs). lia.
Qed.

End CounterOrderFacts.

Lemma lexical_model_loop (total : Z) (items : list (string * Z))
    (model : list (string * lex_entry)) :
  total ≠ 0 →
  for_each
    (λ model item,
       let '(word, cnt) := item in
       p ← truediv (NInt cnt) (NInt total);
       q ← truediv (NInt cnt) (NInt total);
       Ok (model ++ [(word, {| count := cnt;
                               probability := p;
                               percentage := mul q (NInt 100) |})]))
    items model
  = Ok (model ++
        ((λ item : string * Z,
            (item.1,
             {| count := item.2;
                probability := NFloat (Qred (inject_Z item.2 / inject_Z total));
                percentage :=
                  NFloat (Qred (Qred (inject_Z item.2 / inject_Z total) * inject_Z 100)) |}))
           <$> items)).
Proof.
  intros Ht. revert model. induction items as [|[w c] items IH]; intros model.
  - cbn [for_each fmap list_fmap]. rewrite app_nil_r. reflexivity.
  - cbn [for_each]. rewrite !truediv_int by exact Ht. cbn [mbind result_bind].
    rewrite IH, fmap_cons, <- app_assoc. reflexivity.
Qed.

(** The lexical model as a function of the ordered items of [word_freq]. *)
Lemma lexical_model_value (words : list string) :
  lexical_model words
  = Ok ((λ item : string * Z,
           (item.1,
            {| count := item.2;
               probability := NFloat (Qred (inject_Z item.2 / inject_Z (len words)));
               percentage :=
                 NFloat (Qred (Qred (inject_Z item.2 / inject_Z (len words))
                               * inject_Z 100)) |}))
          <$> counter_items words).
Proof.
  unfold lexical_model. destruct words as [|w words]; [reflexivity|].
  rewrite lexical_model_loop by (rewrite len_cons; unfold len; lia).
  reflexivity.
Qed.

(** X18: the lexical model is always built, without a division by zero: it
    has one entry per distinct word, in the order of first occurrence, whose
    count is the number of occurrences of the word and whose probability is
    that count over the number of tokens, above 0 and at most 1; the counts
    add up to the number of tokens. *)
Theorem X18_lexical_model (words : list string) :
  ∃ model,
    lexical_model words = Ok model ∧
    model.*1 = first_occurrences words ∧
    length model = size (list_to_set words : gset string) ∧
    Forall (λ wd, count wd.2 = len (filter (λ w, w = wd.1) words) ∧
                  ∃ q, probability wd.2 = NFloat q ∧
                       (q == inject_Z (count wd.2) / inject_Z (len words))%Q ∧
                       (0 < q <= 1)%Q) model ∧
    sum ((λ wd, count wd.2) <$> model) = len words.
Proof.
  rewrite lexical_model_value. eexists. split; [reflexivity|].
  split; [|split; [|split]].
  - rewrite <- list_fmap_compose. unfold counter_items.
    rewrite <- list_fmap_compose. apply list_fmap_id.
  - rewrite length_fmap. unfold counter_items. rewrite length_fmap.
    apply length_first_occurrences.
  - apply Forall_fmap, Forall_forall. intros [w c] Hin. cbn [fst snd count probability].
    destruct (counter_items_count _ _ _ Hin) as (Hc & Hrange).
    split; [exact Hc|]. eexists. split; [reflexivity|].
    split; [apply Qred_correct|]. apply share_range. exact Hrange.
  - rewrite <- list_fmap_compose. apply sum_counter_items.
Qed.

Lemma sum_fmap_ones {A : Type} (l : list A) : sum ((λ _, 1) <$> l) = len l.
Proof.
  induction l as [|x l IH]; [reflexivity|].
  rewrite fmap_cons, sum_cons, IH, len_cons. reflexivity.
Qed.

Lemma len_filter_fmap {A B : Type} (f : A → B) (P : B → Prop)
    `{∀ y, Decision (P y)} (l : list A) :
  len (filter P (f <$> l)) = len (filter (λ x, P (f x)) l).
Proof.
  induction l as [|x l IH]; [reflexivity|].
  rewrite fmap_cons, !filter_cons.
  destruct (decide (P (f x))); rewrite ?len_cons, IH; reflexivity.
Qed.

(** The two legomena counts and their percentages. *)
Lemma compute_corpus_quality_legomena
    (words : list string) (lexical_model : list (string * lex_entry)) :
  ∃ metrics,
    compute_corpus_quality words lexical_model = Ok metrics ∧
    hapax_legomena metrics = NInt (len (filter (λ wd, count wd.2 = 1) lexical_model)) ∧
    dis_legomena metrics = NInt (len (filter (λ wd, count wd.2 = 2) lexical_model)) ∧
    hapax_percentage metrics
    = (if 0 <? Z.of_nat (size (list_to_set words : gset string))
       then NFloat (Qred (Qred (inject_Z (len (filter (λ wd, count wd.2 = 1) lexical_model))
                                / inject_Z (Z.of_nat (size (list_to_set words : gset string))))
                          * inject_Z 100))
       else NInt 0).
Proof.
  unfold compute_corpus_quality. rewrite !percent_of_value, !sum_fmap_ones.
  assert (∃ ttr, (if 0 <? len words
                  then truediv (NInt (Z.of_nat (size (list_to_set words : gset string))))
                               (NInt (len words))
                  else Ok (NInt 0)) = Ok ttr) as [ttr ->].
  { destruct (0 <? len words) eqn:E; [|eauto].
    apply Z.ltb_lt in E. rewrite truediv_int by lia. eauto. }
  cbn [mbind result_bind].
  assert (∃ avg, (if 0 <? len words
                  then truediv (NInt (sum (str_len <$> words))) (NInt (len words))
                  else Ok (NInt 0)) = Ok avg) as [avg ->].
  { destruct (0 <? len words) eqn:E; [|eauto].
    apply Z.ltb_lt in E. rewrite truediv_int by lia. eauto. }
  cbn [mbind result_bind].
  destruct (1000 <=? len words) eqn:E.
  - apply Z.leb_le in E.
    assert (100 ≤ len words / 10) by (apply Z.div_le_lower_bound; lia).
    rewrite truediv_int by lia. cbn [mbind result_bind].
    eexists. split; [reflexivity|]. cbn. repeat split; reflexivity.
  - cbn [mbind result_bind].
    eexists. split; [reflexivity|]. cbn -[mul]. repeat split; reflexivity.
Qed.

Lemma lexical_model_counts (words : list string) (model : list (string * lex_entry)) :
  lexical_model words = Ok model →
  (λ wd, count wd.2) <$> model = (counter_items words).*2.
Proof.
  rewrite lexical_model_value. intros [= <-].
  rewrite <- list_fmap_compose. reflexivity.
Qed.

(** X12: for the metrics that [main] computes from a word list and its own
    lexical model, the type-token ratio never divides by zero: it is the int
    0 on no tokens, and otherwise the number of distinct tokens over the
    number of tokens, above 0 and at most 1. *)
Theorem X12_type_token_ratio_range (words : list string) :
  ∃ metrics,
    main_quality_metrics words = Ok metrics ∧
    if decide (words = [])
    then type_token_ratio metrics = NInt 0
    else ∃ q, type_token_ratio metrics = NFloat q ∧
              (q == inject_Z (Z.of_nat (size (list_to_set words : gset string)))
                    / inject_Z (len words))%Q ∧
              (0 < q <= 1)%Q.
Proof.
  unfold main_quality_metrics. rewrite lexical_model_value. cbn [mbind result_bind].
  match goal with
  | |- context [compute_corpus_quality words ?m] =>
      destruct (compute_corpus_quality_value words m) as (metrics & Hrun & Httr & _)
  end.
  exists metrics. split; [exact Hrun|]. rewrite Httr.
  destruct words as [|w words].
  - rewrite decide_True by reflexivity. reflexivity.
  - rewrite decide_False by discriminate.
    pose proof (size_list_to_set_le (w :: words)) as Hle.
    pose proof (size_list_to_set_pos w words) as Hpos.
    rewrite len_cons in *. unfold len in *.
    replace (0 <? 1 + Z.of_nat (length words)) with true
      by (symmetry; apply Z.ltb_lt; lia).
    eexists. split; [reflexivity|]. split; [apply Qred_correct|].
    apply share_range. cbn [length] in Hle. lia.
Qed.

(** X13: for the metrics that [main] computes from a word list and its own
    lexical model, the vocabulary growth rate (new words per thousand
    tokens) is between 0 and 1000. *)
Theorem X13_vocab_growth_rate_range (words : list string) :
  ∃ metrics,
    main_quality_metrics words = Ok metrics ∧
    (0 <= Q_of_num (vocab_growth_rate metrics) <= 1000)%Q.
Proof.
  unfold main_quality_metrics. rewrite lexical_model_value. cbn [mbind result_bind].
  match goal with
  | |- context [compute_corpus_quality words ?m] =>
      destruct (compute_corpus_quality_value words m)
        as (metrics & Hrun & Httr & _ & Hgrowth)
  end.
  exists metrics. split; [exact Hrun|]. rewrite Hgrowth, Httr.
  destruct (1000 <=? len words) eqn:E.
  - apply Z.leb_le in E.
    assert (100 ≤ len words / 10) by (apply Z.div_le_lower_bound; lia).
    pose proof (size_list_to_set_le (take (Z.to_nat (Z.min 1000 (len words / 10))) words)) as Hle.
    rewrite length_take in Hle.
    cbn [Q_of_num]. apply (scaled_ratio_bounds _ _ 1000); lia.
  - apply Z.leb_gt in E. destruct (0 <? len words) eqn:E0.
    + apply Z.ltb_lt in E0. pose proof (size_list_to_set_le words) as Hle.
      unfold len in *. cbn [mul Q_of_num].
      apply (scaled_ratio_bounds _ _ 1000); lia.
    + cbn [mul Q_of_num]. split; discriminate.
Qed.

(** X19: for the metrics that [main] computes from a word list and its own
    lexical model, the coverages are percentages: 0 <= top 10 <= top 100 <=
    top 1000 <= 100. *)
Theorem X19_main_coverage_is_percentage (words : list string) :
  ∃ metrics,
    main_quality_metrics words = Ok metrics ∧
    (0 <= Q_of_num (top_10_coverage metrics))%Q ∧
    (Q_of_num (top_10_coverage metrics) <= Q_of_num (top_100_coverage metrics))%Q ∧
    (Q_of_num (top_100_coverage metrics) <= Q_of_num (top_1000_coverage metrics))%Q ∧
    (Q_of_num (top_1000_coverage metrics) <= 100)%Q.
Proof.
  unfold main_quality_metrics.
  destruct (lexical_model words) as [model|] eqn:Hmodel;
    [|rewrite lexical_model_value in Hmodel; discriminate Hmodel].
  cbn [mbind result_bind].
  pose proof (lexical_model_counts _ _ Hmodel) as Hcounts.
  destruct (compute_corpus_quality_value words model)
    as (metrics & Hrun & _ & Htop & _).
  destruct (Htop _ eq_refl) as (H10 & H100 & H1000). cbn beta in *.
  exists metrics. split; [exact Hrun|]. rewrite H10, H100, H1000.
  assert (Forall (λ wd, 0 ≤ count wd.2) model) as Hnn.
  { assert (Forall (λ x, 0 ≤ x) ((λ wd : string * lex_entry, count wd.2) <$> model)) as Hf.
    { rewrite Hcounts. apply Forall_forall. intros v Hv.
      apply list_elem_of_fmap in Hv as ([w c] & -> & Hin).
      destruct (counter_items_count _ _ _ Hin) as (_ & ?). cbn [snd]. lia. }
    rewrite Forall_fmap in Hf. exact Hf. }
  pose proof (sorted_counts_nonneg model Hnn) as Hs.
  assert (sum ((λ wd, count wd.2) <$> sorted_by_count_desc model) = len words) as Hall.
  { rewrite (sum_Permutation _ ((λ wd, count wd.2) <$> model)).
    - rewrite Hcounts. apply sum_counter_items.
    - apply fmap_Permutation.
      rewrite sorted_by_count_desc_generic. apply sorted_desc_Permutation. }
  rewrite !fmap_take.
  set (counts := (λ wd : string * lex_entry, count wd.2) <$> sorted_by_count_desc model) in *.
  pose proof (sum_take_mono counts 0 10 Hs ltac:(lia)) as [_ M0].
  pose proof (sum_take_mono counts 10 100 Hs ltac:(lia)) as [_ M1].
  pose proof (sum_take_mono counts 100 1000 Hs ltac:(lia)) as [_ M2].
  pose proof (sum_take_mono counts 1000 (max 1000 (length counts)) Hs ltac:(lia)) as [_ M3].
  rewrite (take_ge counts (max 1000 (length counts))) in M3 by lia.
  change (sum (take 0 counts)) with 0 in M0.
  destruct (0 <? len words) eqn:E.
  - apply Z.ltb_lt in E. cbn [Q_of_num].
    split; [apply (scaled_ratio_bounds _ _ 100); lia|].
    split; [apply scaled_ratio_mono; lia|].
    split; [apply scaled_ratio_mono; lia|].
    apply (scaled_ratio_bounds _ _ 100); lia.
  - cbn [Q_of_num]. repeat split; discriminate.
Qed.

(** X20: with at least one token and at most 1000 distinct words, the top
    1000 words of [main]'s lexical model are all of them, and their coverage
    is exactly 100. *)
Theorem X20_main_full_coverage (words : list string) :
  words ≠ [] →
  (size (list_to_set words : gset string) ≤ 1000)%nat →
  ∃ metrics,
    main_quality_metrics words = Ok metrics ∧
    top_1000_coverage metrics = NFloat 100%Q.
Proof.
  intros Hne Hsize. unfold main_quality_metrics.
  destruct (lexical_model words) as [model|] eqn:Hmodel;
    [|rewrite lexical_model_value in Hmodel; discriminate Hmodel].
  cbn [mbind result_bind].
  pose proof (lexical_model_counts _ _ Hmodel) as Hcounts.
  destruct (compute_corpus_quality_value words model)
    as (metrics & Hrun & _ & Htop & _).
  destruct (Htop _ eq_refl) as (_ & _ & H1000). cbn beta in *.
  exists metrics. split; [exact Hrun|]. rewrite H1000.
  assert (length (sorted_by_count_desc model) ≤ 1000)%nat as Hlen.
  { rewrite sorted_by_count_desc_generic, sorted_desc_Permutation.
    rewrite <- (length_fmap (λ wd : string * lex_entry, count wd.2)), Hcounts.
    unfold counter_items. rewrite !length_fmap, length_first_occurrences. exact Hsize. }
  rewrite take_ge by exact Hlen.
  rewrite (sum_Permutation _ ((λ wd, count wd.2) <$> model))
    by (apply fmap_Permutation; rewrite sorted_by_count_desc_generic;
        apply sorted_desc_Permutation).
  rewrite Hcounts, sum_counter_items.
  assert (0 < len words) as Hpos
    by (destruct words; [destruct (Hne eq_refl)|rewrite len_cons; unfold len; lia]).
  replace (0 <? len words) with true by (symmetry; apply Z.ltb_lt; exact Hpos).
  f_equal.
  rewrite (Qred_complete (inject_Z (len words) / inject_Z (len words)) 1%Q).
  - reflexivity.
  - field. intros E. apply (proj1 (inject_Z_injective (len words) 0)) in E. lia.
Qed.

Lemma X20_main_full_coverage_witness :
  ∃ metrics,
    main_quality_metrics ["w"; "to"; "to"; "je"] = Ok metrics ∧
    top_1000_coverage metrics = NFloat 100%Q.
Proof.
  apply (X20_main_full_coverage ["w"; "to"; "to"; "je"]).
  - discriminate.
  - apply (bool_decide_unpack _). vm_compute. exact I.
Defined.

(** X21: for the metrics that [main] computes, [hapax_legomena] is the number
    of distinct words that occur exactly once, [dis_legomena] the number that
    occur exactly twice, and [hapax_percentage] lies between 0 and 100. *)
Theorem X21_main_legomena (words : list string) :
  ∃ metrics,
    main_quality_metrics words = Ok metrics ∧
    hapax_legomena metrics
    = NInt (len (filter (λ w, len (filter (λ x, x = w) words) = 1)
                   (first_occurrences words))) ∧
    dis_legomena metrics
    = NInt (len (filter (λ w, len (filter (λ x, x = w) words) = 2)
                   (first_occurrences words))) ∧
    (0 <= Q_of_num (hapax_percentage metrics) <= 100)%Q.
Proof.
  unfold main_quality_metrics. rewrite lexical_model_value. cbn [mbind result_bind].
  match goal with
  | |- context [compute_corpus_quality words ?m] =>
      destruct (compute_corpus_quality_legomena words m)
        as (metrics & Hrun & Hh & Hd & Hp)
  end.
  exists metrics. split; [exact Hrun|].
  rewrite len_filter_fmap in Hh, Hd, Hp. cbn [snd count] in Hh, Hd, Hp.
  unfold counter_items in Hh, Hd, Hp.
  rewrite len_filter_fmap in Hh, Hd, Hp. cbn [snd] in Hh, Hd, Hp.
  assert (∀ n, len (filter (λ x : string, get0 (Counter words) x = n) (first_occurrences words))
               = len (filter (λ w, len (filter (λ x, x = w) words) = n)
                        (first_occurrences words))) as Hocc.
  { intros n. f_equal. apply list_filter_iff. intros w. rewrite get0_Counter. reflexivity. }
  rewrite Hocc in Hh, Hd, Hp.
  split; [exact Hh|]. split; [exact Hd|]. rewrite Hp.
  pose proof (len_filter_le (λ w, len (filter (λ x, x = w) words) = 1)
                (first_occurrences words)) as Hle.
  assert (len (first_occurrences words)
          = Z.of_nat (size (list_to_set words : gset string))) as Hfo
    by (unfold len; rewrite length_first_occurrences; reflexivity).
  rewrite Hfo in Hle.
  destruct (0 <? Z.of_nat (size (list_to_set words : gset string))) eqn:E.
  - apply Z.ltb_lt in E. cbn [Q_of_num]. apply (scaled_ratio_bounds _ _ 100); lia.
  - cbn [Q_of_num]. split; discriminate.
Qed.
